(** * OpenVLC text relay and TurtleBot command bridge

    Shallow embedding of
      - [OpenVLC/TX/tx_send.py]   (sender: wrap, encode, split, pad),
      - [OpenVLC/RX/rx_relay.py]  (receiver: strip, reassemble, relay),
      - [eth_bridge_move.py]      (sanitizer, command parser, dispatcher,
                                   goal callbacks).

    Conventions.
      - A Python [str] is a list of Unicode code points ([N]); a Python
        [bytes] object is a list of octets ([N] below 256).
      - A Python [float] is represented by the exact rational it stands
        for.  The code only compares floats, takes [abs], negates and
        selects one of its operands ([min]/[max]); binary64 rounding is
        monotone and symmetric in the sign, so these operations commute
        with it.
      - The character classes of [re] (digits, letters under
        [re.IGNORECASE]) are written out for the ASCII repertoire:
        which further code points count as digits or fold onto a
        letter is a matter of the interpreter's Unicode tables.  Every
        statement that quantifies over the texts the sanitizer or the
        command parser reads is therefore made for ASCII texts and
        carries an [isascii] hypothesis.  The sender and the receiver
        use no such class and are modelled for all of Unicode. *)

From Stdlib Require Import List Bool Arith NArith ZArith QArith Qabs Lia Lqa.
From Stdlib Require Ascii String.
Import ListNotations String.StringSyntax.
Delimit Scope string_scope with string.

Local Open Scope nat_scope.
Local Open Scope list_scope.

(** ** Python built-ins used by the three scripts *)

Module Py.

Definition text := list N.
Definition bytes := list N.

(** A string literal. *)
Definition lit (s : String.string) : text :=
  List.map Ascii.N_of_ascii (String.list_ascii_of_string s).

Arguments lit s%_string.

Definition isascii (t : text) : bool := forallb (fun c => (c <? 128)%N) t.

(** [str.isspace] on one character: the code points Python treats as
    whitespace ([str.strip()] without argument and [\s] in [re]). *)
Definition isspace (c : N) : bool :=
  ((9 <=? c) && (c <=? 13) || (28 <=? c) && (c <=? 32)
   || (c =? 133) || (c =? 160) || (c =? 5760)
   || (8192 <=? c) && (c <=? 8202)
   || (c =? 8232) || (c =? 8233) || (c =? 8239) || (c =? 8287)
   || (c =? 12288))%N.

Fixpoint lstrip (t : text) : text :=
  match t with
  | c :: t' => if isspace c then lstrip t' else t
  | [] => []
  end.

Definition rstrip (t : text) : text := rev (lstrip (rev t)).

(** [t.strip()]: leading and trailing whitespace removed. *)
Definition strip (t : text) : text := rstrip (lstrip t).

Fixpoint startswith (p t : text) : bool :=
  match p, t with
  | [], _ => true
  | a :: p', b :: t' => (a =? b)%N && startswith p' t'
  | _ :: _, [] => false
  end.

Definition endswith (p t : text) : bool := startswith (rev p) (rev t).

(** [hay.find(needle)]: lowest index of an occurrence, [None] for -1. *)
Fixpoint find_from (i : nat) (needle hay : text) : option nat :=
  if startswith needle hay then Some i
  else match hay with
       | [] => None
       | _ :: hay' => find_from (S i) needle hay'
       end.

Definition find (needle hay : text) : option nat := find_from 0 needle hay.

(** [needle in hay]. *)
Definition contains (needle hay : text) : bool :=
  match find needle hay with Some _ => true | None => false end.

(** The index [find] returns where the code has checked [in] first. *)
Definition index_of (needle hay : text) : nat :=
  match find needle hay with Some i => i | None => 0 end.

(** [t[i:]], [t[:j]] and [t[i:j]] for non-negative bounds. *)
Definition slice_from (i : nat) {A} (t : list A) : list A := skipn i t.
Definition slice_to (j : nat) {A} (t : list A) : list A := firstn j t.
Definition slice (i j : nat) {A} (t : list A) : list A :=
  firstn (j - i) (skipn i t).

(** [b.ljust(width, fill)]. *)
Definition ljust (width : nat) (fill : N) (b : bytes) : bytes :=
  b ++ repeat fill (width - length b).

(** [s.encode("utf-8")]: [None] stands for [UnicodeEncodeError]
    (surrogates) . *)
Definition encode_char (c : N) : option bytes :=
  (if c <? 128 then Some [c]
   else if c <? 2048 then Some [192 + c / 64; 128 + c mod 64]
   else if c <? 65536 then
     if (55296 <=? c) && (c <=? 57343) then None
     else Some [224 + c / 4096; 128 + (c / 64) mod 64; 128 + c mod 64]
   else if c <? 1114112 then
     Some [240 + c / 262144; 128 + (c / 4096) mod 64;
           128 + (c / 64) mod 64; 128 + c mod 64]
   else None)%N.

Fixpoint encode (t : text) : option bytes :=
  match t with
  | [] => Some []
  | c :: t' =>
      match encode_char c, encode t' with
      | Some b, Some bs => Some (b ++ bs)
      | _, _ => None
      end
  end.

Definition is_cont (b : N) : bool := ((128 <=? b) && (b <? 192))%N.

(** [b.decode("utf-8", errors="ignore")]: ill-formed sequences are
    dropped (the lead byte with the continuation bytes accepted so far;
    a sequence cut by the end of the input is dropped whole). *)
Fixpoint decode_ignore (bs : bytes) : text :=
  match bs with
  | [] => []
  | b :: r1 =>
      (if b <? 128 then b :: decode_ignore r1
       else if b <? 194 then decode_ignore r1
       else if b <? 224 then
         match r1 with
         | [] => []
         | b2 :: r2 =>
             if is_cont b2
             then ((b - 192) * 64 + (b2 - 128)) :: decode_ignore r2
             else decode_ignore r1
         end
       else if b <? 240 then
         match r1 with
         | [] => []
         | b2 :: r2 =>
             if negb (is_cont b2)
                || (if b2 <? 160 then b =? 224 else b =? 237)
             then decode_ignore r1
             else match r2 with
                  | [] => []
                  | b3 :: r3 =>
                      if is_cont b3
                      then ((b - 224) * 4096 + (b2 - 128) * 64 + (b3 - 128))
                             :: decode_ignore r3
                      else decode_ignore r2
                  end
         end
       else if b <? 245 then
         match r1 with
         | [] => []
         | b2 :: r2 =>
             if negb (is_cont b2)
                || (if b2 <? 144 then b =? 240 else b =? 244)
             then decode_ignore r1
             else match r2 with
                  | [] => []
                  | b3 :: r3 =>
                      if negb (is_cont b3) then decode_ignore r2
                      else match r3 with
                           | [] => []
                           | b4 :: r4 =>
                               if is_cont b4
                               then ((b - 240) * 262144 + (b2 - 128) * 4096
                                     + (b3 - 128) * 64 + (b4 - 128))
                                      :: decode_ignore r4
                               else decode_ignore r3
                           end
                  end
         end
       else decode_ignore r1)%N
  end.

(** [str.lower] on the letters the parser applies it to. *)
Definition lower_char (c : N) : N :=
  (if (65 <=? c) && (c <=? 90) then c + 32 else c)%N.

Definition lower (t : text) : text := List.map lower_char t.

Fixpoint text_eqb (a b : text) : bool :=
  match a, b with
  | [], [] => true
  | x :: a', y :: b' => (x =? y)%N && text_eqb a' b'
  | _, _ => false
  end.

End Py.

Import Py.

(** The framing markers shared by the sender and the receiver. *)
Definition START_MARK : text := (lit "<START>").
Definition END_MARK : text := (lit "<END>").

(** ** OpenVLC/TX/tx_send.py *)

Module Tx.

Definition PACKET_SIZE : nat := 800.

(** The loop [for i in range(0, len(full_bytes), PACKET_SIZE)]: one
    padded chunk per iteration. *)
Fixpoint split_pad (fuel size : nat) (full_bytes : bytes) : list bytes :=
  match fuel with
  | 0 => []
  | S fuel' =>
      match full_bytes with
      | [] => []
      | _ :: _ =>
          let chunk := slice_to size full_bytes in
          let chunk :=
            if length chunk <? size then ljust size 32%N chunk else chunk in
          chunk :: split_pad fuel' size (slice_from size full_bytes)
      end
  end.

(** Lines 27-36: the packets built, and then sent in this order, for a
    line of input that is not the quit command; [None] when Python
    raises ([range] with step 0, or an unencodable character).  The
    script fixes [size] to [PACKET_SIZE]. *)
Definition packets (size : nat) (user_msg : text) : option (list bytes) :=
  let full_msg := START_MARK ++ user_msg ++ END_MARK in
  match encode full_msg with
  | None => None
  | Some full_bytes =>
      if size =? 0 then None
      else Some (split_pad (length full_bytes) size full_bytes)
  end.

End Tx.

(** ** OpenVLC/RX/rx_relay.py *)

Module Rx.

Definition PACKET_SIZE : nat := 800.

(** The two module-level variables of the receive loop. *)
Record state := mkState { buffer : text; inside_message : bool }.

Definition initial : state := mkState [] false.

(** [chunk = data.decode("utf-8", errors="ignore").strip()], where
    [data] is what [recvfrom(size)] returns (at most [size] bytes); the
    script fixes [size] to [PACKET_SIZE]. *)
Definition chunk_of (size : nat) (datagram : bytes) : text :=
  strip (decode_ignore (slice_to size datagram)).

(** One iteration of the loop body after the chunk is computed.  The
    second component is the message relayed in this iteration, if any
    (the code sends ["<START>" + buffer + "<END>"] to the robot). *)
Definition process (st : state) (chunk : text) : state * option text :=
  let '(buf, inside, chunk) :=
    if contains START_MARK chunk then
      let start_idx := index_of START_MARK chunk + length START_MARK in
      ([], true, slice_from start_idx chunk)
    else (buffer st, inside_message st, chunk) in
  if inside then
    if contains END_MARK chunk then
      let end_idx := index_of END_MARK chunk in
      let buf := buf ++ slice_to end_idx chunk in
      (mkState [] false, Some buf)
    else (mkState (buf ++ chunk) inside, None)
  else (mkState buf inside, None).

Definition step (size : nat) (st : state) (datagram : bytes)
  : state * option text :=
  process st (chunk_of size datagram).

(** The loop over a sequence of datagrams: final state and the messages
    relayed, in order. *)
Fixpoint run (size : nat) (st : state) (datagrams : list bytes)
  : state * list text :=
  match datagrams with
  | [] => (st, [])
  | d :: ds =>
      let '(st1, out) := step size st d in
      let '(st2, outs) := run size st1 ds in
      (st2, match out with Some m => m :: outs | None => outs end)
  end.

Definition relay_payload (message : text) : text :=
  START_MARK ++ message ++ END_MARK.

(** Bytes of an ASCII literal, for writing datagrams. *)
Definition datagram (s : String.string) : bytes := lit s.

Arguments datagram s%_string.

End Rx.

(** ** The fragment of Python's [re] the bridge uses *)

Module Re.

(** Patterns.  [Chr p] is a single-character item (a literal, a literal
    under [re.IGNORECASE], or a class such as [\s] and [\d]); [Group n]
    is the n-th capturing group; [Bol] and [Eol] are [^] and [$]. *)
Inductive regex : Type :=
| Eps
| Chr (p : N -> bool)
| Seq (a b : regex)
| Alt (a b : regex)
| Star (a : regex)
| Group (n : nat) (a : regex)
| Bol
| Eol.

Definition Plus (a : regex) : regex := Seq a (Star a).
Definition Opt (a : regex) : regex := Alt a Eps.
Definition cat (rs : list regex) : regex := fold_right Seq Eps rs.

(** A position of the backtracking matcher: characters consumed so far,
    what is left of the subject, and the groups captured on the way. *)
Record mstate := mkM { pos : nat; rest : text; groups : list (nat * text) }.

Definition capture (n : nat) (from to : mstate) : mstate :=
  mkM (pos to) (rest to)
      ((n, firstn (length (rest from) - length (rest to)) (rest from))
         :: groups to).

(** Greedy repetition of [body]: another round first (it has to consume
    something), stopping here last.  [fuel] bounds the rounds by the
    length of what is left. *)
Fixpoint star_loop (body : mstate -> list mstate) (fuel : nat) (st : mstate)
  {struct fuel} : list mstate :=
  match fuel with
  | 0 => [st]
  | S fuel' =>
      flat_map
        (fun st' =>
           if length (rest st') <? length (rest st)
           then star_loop body fuel' st' else [])
        (body st)
      ++ [st]
  end.

(** All the ways [r] matches at [st], in the order in which a
    backtracking matcher tries them (alternatives left to right,
    repetition greedy).  The first element is the match Python reports. *)
Fixpoint run (r : regex) (st : mstate) {struct r} : list mstate :=
  match r with
  | Eps => [st]
  | Chr p =>
      match rest st with
      | c :: t => if p c then [mkM (S (pos st)) t (groups st)] else []
      | [] => []
      end
  | Seq a b => flat_map (run b) (run a st)
  | Alt a b => run a st ++ run b st
  | Star a => star_loop (run a) (length (rest st)) st
  | Group n a => List.map (capture n st) (run a st)
  | Bol => if pos st =? 0 then [st] else []
  | Eol =>
      match rest st with
      | [] => [st]
      | [c] => if (c =? 10)%N then [st] else []
      | _ => []
      end
  end.

(** A match object: the groups that took part. *)
Definition match_obj := list (nat * text).

(** [re.match(r, subject)]. *)
Definition re_match (r : regex) (subject : text) : option match_obj :=
  match run r (mkM 0 subject []) with
  | st :: _ => Some (groups st)
  | [] => None
  end.

(** [m.group(n)]: [None] when the group did not take part. *)
Fixpoint group (n : nat) (m : match_obj) : option text :=
  match m with
  | [] => None
  | (k, t) :: m' => if k =? n then Some t else group n m'
  end.

(** [m.group(n)] for a group that is on every path of the pattern. *)
Definition group_str (n : nat) (m : match_obj) : text :=
  match group n m with Some t => t | None => [] end.

(** [re.sub(r, repl, subject)] for a literal replacement: scan from the
    left, replace each match, copy the other characters. *)
Fixpoint sub_from (fuel : nat) (r : regex) (repl : text)
         (at_pos : nat) (subject : text) : text :=
  match fuel with
  | 0 => subject
  | S fuel' =>
      match run r (mkM at_pos subject []) with
      | st :: _ =>
          let k := length subject - length (rest st) in
          if k =? 0 then
            match subject with
            | [] => repl
            | c :: t => repl ++ c :: sub_from fuel' r repl (S at_pos) t
            end
          else repl ++ sub_from fuel' r repl (at_pos + k) (rest st)
      | [] =>
          match subject with
          | [] => []
          | c :: t => c :: sub_from fuel' r repl (S at_pos) t
          end
      end
  end.

Definition re_sub (r : regex) (repl subject : text) : text :=
  sub_from (S (length subject)) r repl 0 subject.

(** Items of the patterns, as they act on ASCII subjects. *)
Definition is_digit (c : N) : bool := ((48 <=? c) && (c <=? 57))%N.
Definition ws : regex := Chr isspace.
Definition digit : regex := Chr is_digit.
Definition chr (c : N) : regex := Chr (N.eqb c).
(** A literal word under [re.IGNORECASE]. *)
Definition chr_i (c : N) : regex := Chr (fun x => (lower_char x =? lower_char c)%N).
Definition word_i (s : String.string) : regex := cat (List.map chr_i (lit s)).

Arguments word_i s%_string.

End Re.

(** ** eth_bridge_move.py *)

Module Bridge.

Import Re.

Local Open Scope Q_scope.

Definition COMMAND_HELP : text := lit "
Commands:
  drive forward <meters> [speed <mps>]
  drive backward <meters> [speed <mps>]
  rotate clockwise <degrees> [speed <radps>]
  rotate counterclockwise <degrees> [speed <radps>]
  vel <linear_x_mps> <angular_z_radps>
  stop

Examples:
  drive forward 0.5 speed 0.25
  rotate clockwise 90
  vel 0.2 -0.3
".

(** Python's [min(a, b)] and [max(a, b)]: the first argument unless the
    second is strictly better. *)
Definition Qltb (a b : Q) : bool := negb (Qle_bool b a).
Definition py_min (a b : Q) : Q := if Qltb b a then b else a.
Definition py_max (a b : Q) : Q := if Qltb a b then b else a.

Definition clamp (val lo hi : Q) : Q := py_max lo (py_min val hi).

(** *** Sanitizer *)

Definition QUOTE2 : N := 34%N.
Definition QUOTE1 : N := 39%N.

(** [^\s*<\s*start\s*>\s*] *)
Definition START_RE : regex :=
  cat [Bol; Star ws; chr 60; Star ws; word_i "start"; Star ws; chr 62; Star ws].

(** [\s*<\s*end\s*>\s*$] *)
Definition END_RE : regex :=
  cat [Star ws; chr 60; Star ws; word_i "end"; Star ws; chr 62; Star ws; Eol].

(** [\s+] *)
Definition WS_RUN : regex := Plus ws.

(** The test for surrounding quotes. *)
Definition quoted (t : text) : bool :=
  (startswith [QUOTE2] t && endswith [QUOTE2] t)
  || (startswith [QUOTE1] t && endswith [QUOTE1] t).

Definition strip_wrappers (txt : text) : text :=
  let t := strip txt in
  let t := if quoted t then slice 1 (length t - 1) t else t in
  let t := re_sub START_RE [] t in
  let t := re_sub END_RE [] t in
  let t := strip (re_sub WS_RUN (lit " ") t) in
  t.

(** *** Numbers *)

(** [float(tok)] for a token of the shape [[+-]?\d+(?:\.\d+)?], the
    only shape the parser passes to it: the decimal value, exactly. *)
Fixpoint scan_digits (mant : Z) (scale : positive) (dot : bool) (t : text)
  : Z * positive :=
  match t with
  | [] => (mant, scale)
  | c :: t' =>
      if is_digit c then
        scan_digits (mant * 10 + Z.of_N (c - 48))%Z
                    (if dot then scale * 10 else scale)%positive dot t'
      else if (c =? 46)%N then scan_digits mant scale true t'
      else scan_digits mant scale dot t'
  end.

Definition float_of_token (tok : text) : Q :=
  let '(neg, digits) :=
    match tok with
    | c :: t => if (c =? 45)%N then (true, t)
                else if (c =? 43)%N then (false, t) else (false, tok)
    | [] => (false, tok)
    end in
  let '(mant, scale) := scan_digits 0 1 false digits in
  if neg then (- mant # scale) else (mant # scale).

(** [[+-]?\d+(?:\.\d+)?] *)
Definition NUM : regex :=
  cat [Opt (Alt (chr 43) (chr 45)); Plus digit;
       Opt (cat [chr 46; Plus digit])].

(** *** Command grammar *)

(** [^(?:vel|velocity)\s+(NUM)\s+(NUM)\s*$] *)
Definition VEL_RE : regex :=
  cat [Bol; Alt (word_i "vel") (word_i "velocity"); Plus ws;
       Group 1 NUM; Plus ws; Group 2 NUM; Star ws; Eol].

(** [^(?:drive)\s+(forward|backward)\s+(NUM)(?:\s+speed\s+(NUM))?\s*$] *)
Definition DRIVE_RE : regex :=
  cat [Bol; word_i "drive"; Plus ws;
       Group 1 (Alt (word_i "forward") (word_i "backward")); Plus ws;
       Group 2 NUM;
       Opt (cat [Plus ws; word_i "speed"; Plus ws; Group 3 NUM]);
       Star ws; Eol].

(** [^(?:rotate)\s+(clockwise|counterclockwise|anticlockwise)\s+(NUM)
     (?:\s+speed\s+(NUM))?\s*$] *)
Definition ROTATE_RE : regex :=
  cat [Bol; word_i "rotate"; Plus ws;
       Group 1 (Alt (word_i "clockwise")
                    (Alt (word_i "counterclockwise") (word_i "anticlockwise")));
       Plus ws; Group 2 NUM;
       Opt (cat [Plus ws; word_i "speed"; Plus ws; Group 3 NUM]);
       Star ws; Eol].

(** *** Node parameters and the outside world *)

Record config := mkConfig {
  default_drive_speed : Q;
  default_rot_speed : Q;
  drive_action_name : text;
  rotate_action_name : text
}.

(** The values [declare_parameter] gives. *)
Definition default_config : config :=
  mkConfig (25 # 100) (8 # 10) (lit "/drive_distance") (lit "/rotate_angle").

(** Sender address as [recvfrom] returns it. *)
Definition addr : Type := (text * N)%type.

Inductive action := DriveDistance | RotateAngle.

(** What [wait_for_server(timeout_sec=0.5)] answers for each client. *)
Definition readiness := action -> bool.

(** An angle in radians, kept as the degrees it was converted from:
    [Radians d] is [math.radians(d)]; negating it negates [d]. *)
Inductive angle := Radians (deg : Q).
Definition angle_neg (a : angle) : angle :=
  match a with Radians d => Radians (- d) end.

Inductive goal :=
| DriveGoal (distance : Q) (max_translation_speed : Q)
| RotateGoal (ang : angle) (max_rotation_speed : Q).

(** Text of a reply; [OkVel vx wz] is [f'ok: vel {vx:.3f} {wz:.3f}']. *)
Inductive reply_text :=
| Plain (t : text)
| OkVel (vx wz : Q).

(** What the node does to the outside, in program order. *)
Inductive effect :=
| Publish (vx wz : Q)                       (* vel_pub.publish *)
| Reply (to : addr) (msg : reply_text)      (* sock.sendto(text + '\n') *)
| SendGoal (g : goal) (to : addr).          (* send_goal_async + callback *)

Definition _publish_velocity (vx wz : Q) : list effect := [Publish vx wz].
Definition _reply (to : addr) (msg : reply_text) : list effect := [Reply to msg].

Definition _send_drive_distance (cfg : config) (ready : readiness)
           (meters speed : Q) (to : addr) : list effect :=
  if negb (ready DriveDistance) then
    _reply to (Plain (lit "error: " ++ drive_action_name cfg
                        ++ lit " server not ready"))
  else [SendGoal (DriveGoal meters speed) to].

Definition _send_rotate_angle (cfg : config) (ready : readiness)
           (radians : angle) (rot_speed : Q) (to : addr) : list effect :=
  if negb (ready RotateAngle) then
    _reply to (Plain (lit "error: " ++ rotate_action_name cfg
                        ++ lit " server not ready"))
  else [SendGoal (RotateGoal radians rot_speed) to].

Definition STOP_WORDS : list text := [lit "stop"; lit "e-stop"; lit "estop"].

Definition PARSE_ERROR : reply_text :=
  Plain (lit "error: could not parse command
" ++ COMMAND_HELP).

Definition _handle_command (cfg : config) (ready : readiness)
           (txt : text) (to : addr) : list effect :=
  if existsb (text_eqb txt) STOP_WORDS then
    _publish_velocity 0 0 ++ _reply to (Plain (lit "ok: stopped"))
  else
  match re_match VEL_RE txt with
  | Some m =>
      let vx := clamp (float_of_token (group_str 1 m)) (- (6 # 10)) (6 # 10) in
      let wz := clamp (float_of_token (group_str 2 m)) (- (2 # 1)) (2 # 1) in
      _publish_velocity vx wz ++ _reply to (OkVel vx wz)
  | None =>
  match re_match DRIVE_RE txt with
  | Some m =>
      let direction := lower (group_str 1 m) in
      let meters := float_of_token (group_str 2 m) in
      let speed := match group 3 m with
                   | Some s => float_of_token s
                   | None => default_drive_speed cfg
                   end in
      let meters := if text_eqb direction (lit "forward")
                    then Qabs meters else - Qabs meters in
      let speed := clamp speed (5 # 100) (5 # 10) in
      _send_drive_distance cfg ready meters speed to
  | None =>
  match re_match ROTATE_RE txt with
  | Some m =>
      let sense := lower (group_str 1 m) in
      let degrees := float_of_token (group_str 2 m) in
      let rot_speed := match group 3 m with
                       | Some s => float_of_token s
                       | None => default_rot_speed cfg
                       end in
      let radians := Radians (Qabs degrees) in
      let radians := if text_eqb sense (lit "clockwise")
                     then angle_neg radians else radians in
      let rot_speed := clamp rot_speed (1 # 10) (15 # 10) in
      _send_rotate_angle cfg ready radians rot_speed to
  | None => _reply to PARSE_ERROR
  end end end.

(** One iteration of [_udp_loop] for a received datagram. *)
Definition _udp_step (cfg : config) (ready : readiness)
           (data : bytes) (from : addr) : list effect :=
  let raw := decode_ignore (slice_to 4096 data) in
  let txt := strip_wrappers raw in
  match txt with
  | [] => []
  | _ :: _ => _handle_command cfg ready txt from
  end.

(** *** Goal callbacks *)

(** What [future.result()] of [send_goal_async] holds. *)
Record goal_handle := mkHandle { accepted : bool }.

(** The done-callback currently registered for one submitted goal. *)
Inductive callback :=
| GoalSent (a : action) (to : addr)   (* _drive_goal_sent / _rotate_goal_sent *)
| GoalResult (a : action) (to : addr) (* _drive_result / _rotate_result *)
| NoCallback.

Definition action_word (a : action) : text :=
  match a with DriveDistance => lit "drive" | RotateAngle => lit "rotate" end.

(** [_drive_goal_sent] and [_rotate_goal_sent]: replies sent and the
    callback left registered. *)
Definition _goal_sent (a : action) (h : option goal_handle) (to : addr)
  : list effect * callback :=
  match h with
  | Some gh =>
      if negb (accepted gh) then
        (_reply to (Plain (lit "error: " ++ action_word a ++ lit " goal rejected")),
         NoCallback)
      else
        (_reply to (Plain (lit "ok: " ++ action_word a ++ lit " goal accepted")),
         GoalResult a to)
  | None =>
      (_reply to (Plain (lit "error: " ++ action_word a ++ lit " goal rejected")),
       NoCallback)
  end.

(** [_drive_result] and [_rotate_result]. *)
Definition _goal_result (a : action) (to : addr) : list effect :=
  _reply to (Plain (lit "ok: " ++ action_word a ++ lit " done")).

(** The callback [_send_drive_distance] and [_send_rotate_angle] leave
    on the future of the goal they send. *)
Definition registered_on (e : effect) : callback :=
  match e with
  | SendGoal (DriveGoal _ _) to => GoalSent DriveDistance to
  | SendGoal (RotateGoal _ _) to => GoalSent RotateAngle to
  | _ => NoCallback
  end.

(** Notifications the action client delivers for one goal. *)
Inductive notification :=
| Acknowledged (h : option goal_handle)  (* the send_goal future completes *)
| Completed.                             (* the result future completes *)

(** A future runs the callback registered on it when it completes; a
    notification nobody registered for runs nothing. *)
Definition deliver (cb : callback) (n : notification)
  : list effect * callback :=
  match cb, n with
  | GoalSent a to, Acknowledged h => _goal_sent a h to
  | GoalResult a to, Completed => (_goal_result a to, NoCallback)
  | _, _ => ([], cb)
  end.

Fixpoint lifecycle (cb : callback) (ns : list notification) : list effect :=
  match ns with
  | [] => []
  | n :: ns' =>
      let '(out, cb') := deliver cb n in out ++ lifecycle cb' ns'
  end.

End Bridge.

Import Bridge.

(** ** Vocabulary of the statements *)

(** The sender's packets for [message], fed in order to a fresh
    receiver, make it relay exactly [message] and return to idle. *)
Definition reassembles (size : nat) (message : text) : Prop :=
  exists pkts,
    Tx.packets size message = Some pkts /\
    Rx.run size Rx.initial pkts = (Rx.initial, [message]).

(** A sender address and a world in which both action servers answer,
    for the examples. *)
Definition peer : addr := (lit "192.168.0.7", 40000%N).
Definition all_ready : readiness := fun _ => true.

(** The reply texts of the goal life cycle, as the specification spells
    them. *)
Definition rejected_text (a : action) : reply_text :=
  match a with
  | DriveDistance => Plain (lit "error: drive goal rejected")
  | RotateAngle => Plain (lit "error: rotate goal rejected")
  end.

Definition accepted_text (a : action) : reply_text :=
  match a with
  | DriveDistance => Plain (lit "ok: drive goal accepted")
  | RotateAngle => Plain (lit "ok: rotate goal accepted")
  end.

Definition done_text (a : action) : reply_text :=
  match a with
  | DriveDistance => Plain (lit "ok: drive done")
  | RotateAngle => Plain (lit "ok: rotate done")
  end.

Definition is_accepted (h : option goal_handle) : bool :=
  match h with Some gh => accepted gh | None => false end.

Definition is_completed (n : notification) : bool :=
  match n with Completed => true | Acknowledged _ => false end.

Definition nonspace_head (t : text) : bool :=
  match t with c :: _ => negb (isspace c) | [] => true end.

(** Whitespace runs replaced by one space each, written directly;
    [in_run] tells that the previous character was whitespace. *)
Fixpoint collapse_ws (in_run : bool) (t : text) : text :=
  match t with
  | [] => []
  | c :: t' =>
      if isspace c
      then if in_run then collapse_ws true t' else 32%N :: collapse_ws true t'
      else c :: collapse_ws false t'
  end.

(** Every whitespace character is a space and stands alone. *)
Fixpoint tidy (t : text) : bool :=
  match t with
  | [] => true
  | c :: t' =>
      if isspace c then (c =? 32)%N && nonspace_head t' && tidy t'
      else tidy t'
  end.

(** Whether capturing group [n] occurs in a pattern. *)
Fixpoint has_group (n : nat) (r : Re.regex) : bool :=
  match r with
  | Re.Group k a => (k =? n) || has_group n a
  | Re.Seq a b | Re.Alt a b => has_group n a || has_group n b
  | Re.Star a => has_group n a
  | _ => false
  end.

(** The part of [t] that fills what is left of a packet, [room] bytes,
    and the rest of [t]; [None] when the end of the packet would fall
    inside the encoding of a character, or a character has none. *)
Fixpoint take_piece (room : nat) (t : text) {struct t} : option (text * text) :=
  match t with
  | [] => Some ([], [])
  | c :: t' =>
      if room =? 0 then Some ([], t)
      else match encode_char c with
           | Some b =>
               if length b <=? room then
                 match take_piece (room - length b) t' with
                 | Some (p, r) => Some (c :: p, r)
                 | None => None
                 end
               else None
           | None => None
           end
  end.

(** The segments of [t]: the texts the sender's packets of [size] bytes
    hold, one per packet, when every cut falls between two characters. *)
Fixpoint pieces (fuel size : nat) (t : text) : option (list text) :=
  match fuel, t with
  | S fuel', _ :: _ =>
      match take_piece size t with
      | Some (p, r) =>
          match pieces fuel' size r with
          | Some ps => Some (p :: ps)
          | None => None
          end
      | None => None
      end
  | _, _ => Some []
  end.

(** Packet [d] of [size] bytes holds the encoding of [p], then pad
    spaces only. *)
Definition carries (size : nat) (p : text) (d : bytes) : Prop :=
  exists bp k,
    encode p = Some bp /\ d = bp ++ repeat 32%N k /\ length d = size.

(** No whitespace at either end. *)
Definition clean_edges (p : text) : bool :=
  nonspace_head p && nonspace_head (rev p).

(** The first end marker of [p] is its last five characters. *)
Definition closes (p : text) : bool :=
  match find END_MARK p with
  | Some k => k + length END_MARK =? length p
  | None => false
  end.

(** Of the segments, the last one alone holds an end marker, and its
    first end marker is the one that closes it. *)
Fixpoint only_last_ends (ps : list text) : bool :=
  match ps with
  | [] => false
  | p :: ps' =>
      match ps' with
      | [] => closes p
      | _ :: _ => negb (contains END_MARK p) && only_last_ends ps'
      end
  end.

(** The wrapped [message] goes through packets of [size] bytes
    unharmed: no cut falls inside a character, no segment begins or
    ends with whitespace, no segment after the first holds a start
    marker, and the first end marker a segment holds is the closing
    one. *)
Definition clean_seams (size : nat) (message : text) : bool :=
  let w := START_MARK ++ message ++ END_MARK in
  match pieces (length w) size w with
  | Some ps =>
      forallb clean_edges ps
      && forallb (fun p => negb (contains START_MARK p)) (tl ps)
      && only_last_ends ps
  | None => false
  end.

(** ** The sender's input loop and further vocabulary *)

(** The [while True] loop of [tx_send.py] over the lines [input()]
    returns: the packets sent for each line, up to the line that spells
    [quit] (compared after [lower()]) or the line on which Python
    raises, which ends the script. *)
Fixpoint tx_session (size : nat) (lines : list text) : list (list bytes) :=
  match lines with
  | [] => []
  | user_msg :: later =>
      if text_eqb (lower user_msg) (lit "quit") then []
      else match Tx.packets size user_msg with
           | Some pkts => pkts :: tx_session size later
           | None => []
           end
  end.

(** The code points [encode("utf-8")] accepts: the Unicode scalar
    values. *)
Definition encodable (c : N) : bool :=
  ((c <? 55296) || (57343 <? c) && (c <? 1114112))%N.

(** The pattern that leads to each action, and the action's name in the
    node's parameters. *)
Definition rule_of (a : action) : Re.regex :=
  match a with DriveDistance => DRIVE_RE | RotateAngle => ROTATE_RE end.

Definition action_name (cfg : config) (a : action) : text :=
  match a with
  | DriveDistance => drive_action_name cfg
  | RotateAngle => rotate_action_name cfg
  end.

(** A pattern whose single-character items do not tell a letter from
    its other case. *)
Fixpoint case_blind (r : Re.regex) : Prop :=
  match r with
  | Re.Chr p => forall c, p (lower_char c) = p c
  | Re.Seq a b | Re.Alt a b => case_blind a /\ case_blind b
  | Re.Star a | Re.Group _ a => case_blind a
  | _ => True
  end.

(** Two captured groups, and two matcher positions, that differ in
    letter case only. *)
Definition same_group (g g' : nat * text) : Prop :=
  fst g = fst g' /\ lower (snd g) = lower (snd g').

Definition same_position (s s' : Re.mstate) : Prop :=
  Re.pos s = Re.pos s'
  /\ lower (Re.rest s) = lower (Re.rest s')
  /\ Forall2 same_group (Re.groups s) (Re.groups s').

(** No character of the text is [<]. *)
Definition no_open_angle (t : text) : bool :=
  forallb (fun c => negb (c =? 60)%N) t.

(** The text without its trailing whitespace, written directly. *)
Fixpoint drop_ws_tail (t : text) : text :=
  match t with
  | [] => []
  | c :: t' => if forallb isspace t then [] else c :: drop_ws_tail t'
  end.

(** The action a goal is for. *)
Definition goal_action (g : goal) : action :=
  match g with
  | DriveGoal _ _ => DriveDistance
  | RotateGoal _ _ => RotateAngle
  end.

(** The speed limit a goal carries. *)
Definition goal_speed (g : goal) : Q :=
  match g with
  | DriveGoal _ s => s
  | RotateGoal _ s => s
  end.

(** * Worked examples *)

Example tx_two_packets :
  Tx.packets 16 (lit "hello world")
  = Some [Rx.datagram "<START>hello wor"; Rx.datagram "ld<END>         "].
Proof. vm_compute. reflexivity. Qed.

Example rx_two_packets :
  Rx.run 16 Rx.initial
         [Rx.datagram "<START>hello wor"; Rx.datagram "ld<END>         "]
  = (Rx.initial, [lit "hello world"]).
Proof. vm_compute. reflexivity. Qed.

Example rx_ignores_outside_message :
  Rx.run Rx.PACKET_SIZE Rx.initial [Rx.datagram "noise"; Rx.datagram "<END>"]
  = (Rx.initial, []).
Proof. vm_compute. reflexivity. Qed.

Example decode_drops_ill_formed :
  decode_ignore [104; 195; 169; 255; 105; 226; 130]%N = [104; 233; 105]%N.
Proof. vm_compute. reflexivity. Qed.

Example sanitizer_example :
  strip_wrappers (lit "  < start >  vel   1  2 <END>  ") = lit "vel 1 2".
Proof. vm_compute. reflexivity. Qed.

Example bridge_reads_relayed_message :
  _udp_step default_config all_ready
            (Rx.relay_payload (lit "vel 0.2 -0.3")) peer
  = [Publish (2 # 10) (-3 # 10); Reply peer (OkVel (2 # 10) (-3 # 10))].
Proof. vm_compute. reflexivity. Qed.

Example drive_with_speed :
  _handle_command default_config all_ready
                  (lit "drive Backward 1.5 speed 2") peer
  = [SendGoal (DriveGoal (-15 # 10) (5 # 10)) peer].
Proof. vm_compute. reflexivity. Qed.

Example rotate_clockwise :
  _handle_command default_config all_ready (lit "rotate clockwise 90") peer
  = [SendGoal (RotateGoal (Radians (-90 # 1)) (8 # 10)) peer].
Proof. vm_compute. reflexivity. Qed.

Example drive_server_not_ready :
  _handle_command default_config (fun _ => false) (lit "drive forward 1") peer
  = [Reply peer (Plain (lit "error: /drive_distance server not ready"))].
Proof. vm_compute. reflexivity. Qed.

(** * Facts about the text primitives *)

Lemma startswith_app (p t : text) : startswith p (p ++ t) = true.
Proof.
  induction p as [|a p IH]; simpl; [reflexivity|].
  now rewrite N.eqb_refl.
Qed.

Lemma startswith_true (p t : text) :
  startswith p t = true -> exists r, t = p ++ r.
Proof.
  revert t; induction p as [|a p IH]; intros t H.
  - now exists t.
  - destruct t as [|b t]; simpl in H; [discriminate|].
    apply andb_true_iff in H as [Hab Hp].
    apply N.eqb_eq in Hab; subst b.
    destruct (IH _ Hp) as [r ->]. now exists r.
Qed.

Lemma startswith_length (p t : text) :
  startswith p t = true -> length p <= length t.
Proof.
  intros H. destruct (startswith_true _ _ H) as [r ->].
  rewrite length_app. lia.
Qed.

Lemma startswith_firstn (p t : text) (k : nat) :
  startswith p (firstn k t) = true -> startswith p t = true.
Proof.
  intros H. destruct (startswith_true _ _ H) as [r Hr].
  rewrite <- (firstn_skipn k t), Hr, <- app_assoc.
  apply startswith_app.
Qed.

Lemma startswith_firstn_fits (p t : text) (k : nat) :
  startswith p t = true -> length p <= k -> startswith p (firstn k t) = true.
Proof.
  intros H Hk. destruct (startswith_true _ _ H) as [r ->].
  rewrite firstn_app.
  replace (firstn k p) with p by (symmetry; apply firstn_all2; exact Hk).
  apply startswith_app.
Qed.

Lemma startswith_nth (p t : text) (i : nat) :
  startswith p t = true -> i < length p -> nth i t 0%N = nth i p 0%N.
Proof.
  intros H Hi. destruct (startswith_true _ _ H) as [r ->].
  now rewrite app_nth1.
Qed.

(** [find] returns the first position at which the needle starts. *)
Lemma find_from_first (needle hay : text) (i k : nat) :
  startswith needle (skipn k hay) = true ->
  (forall j, j < k -> startswith needle (skipn j hay) = false) ->
  find_from i needle hay = Some (i + k).
Proof.
  revert i k; induction hay as [|c hay IH]; intros i k Hk Hlt.
  - rewrite skipn_nil in Hk. simpl. rewrite Hk.
    destruct k as [|k]; [now rewrite Nat.add_0_r|].
    specialize (Hlt 0 (Nat.lt_0_succ _)). simpl in Hlt. congruence.
  - destruct k as [|k].
    + simpl in Hk. unfold find_from; fold find_from. rewrite Hk.
      now rewrite Nat.add_0_r.
    + unfold find_from; fold find_from.
      pose proof (Hlt 0 (Nat.lt_0_succ _)) as H0. simpl in H0. rewrite H0.
      rewrite (IH (S i) k); [f_equal; lia|exact Hk|].
      intros j Hj. apply (Hlt (S j)). lia.
Qed.

Lemma find_from_none (needle hay : text) (i : nat) :
  (forall j, startswith needle (skipn j hay) = false) ->
  find_from i needle hay = None.
Proof.
  revert i; induction hay as [|c hay IH]; intros i H.
  - pose proof (H 0) as H0. simpl in *. now rewrite H0.
  - unfold find_from; fold find_from.
    pose proof (H 0) as H0. simpl in H0. rewrite H0.
    apply IH. intros j. apply (H (S j)).
Qed.

Lemma find_from_none_inv (needle hay : text) (i : nat) :
  find_from i needle hay = None ->
  forall j, startswith needle (skipn j hay) = false.
Proof.
  revert i; induction hay as [|c hay IH]; intros i H j.
  - rewrite skipn_nil. simpl in H.
    destruct (startswith needle []); [discriminate|reflexivity].
  - unfold find_from in H; fold find_from in H.
    destruct (startswith needle (c :: hay)) eqn:E; [discriminate|].
    destruct j as [|j]; [exact E|]. simpl. now apply (IH (S i)).
Qed.

Lemma contains_false (needle hay : text) :
  contains needle hay = false <->
  forall j, startswith needle (skipn j hay) = false.
Proof.
  unfold contains, find. split.
  - destruct (find_from 0 needle hay) eqn:E; [discriminate|].
    intros _. now apply find_from_none_inv with (i := 0).
  - intros H. now rewrite find_from_none.
Qed.

Lemma find_first (needle hay : text) (k : nat) :
  startswith needle (skipn k hay) = true ->
  (forall j, j < k -> startswith needle (skipn j hay) = false) ->
  find needle hay = Some k.
Proof. intros H1 H2. unfold find. now rewrite (find_from_first _ _ 0 k). Qed.

Lemma find_prefix (needle t : text) : find needle (needle ++ t) = Some 0.
Proof.
  apply find_first; [apply startswith_app|intros j Hj; lia].
Qed.

Lemma contains_index (needle hay : text) (k : nat) :
  find needle hay = Some k ->
  contains needle hay = true /\ index_of needle hay = k.
Proof. unfold contains, index_of. now intros ->. Qed.

Lemma contains_firstn (needle hay : text) (k : nat) :
  contains needle hay = false -> contains needle (firstn k hay) = false.
Proof.
  rewrite !contains_false. intros H j.
  destruct (startswith needle (skipn j (firstn k hay))) eqn:E; [|reflexivity].
  rewrite skipn_firstn_comm in E.
  apply startswith_firstn in E. now rewrite H in E.
Qed.

Lemma contains_skipn (needle hay : text) (k : nat) :
  contains needle hay = false -> contains needle (skipn k hay) = false.
Proof.
  rewrite !contains_false. intros H j. rewrite skipn_skipn. apply H.
Qed.

Lemma find_from_some_inv (needle hay : text) :
  forall (i k : nat),
    find_from i needle hay = Some k ->
    i <= k
    /\ startswith needle (skipn (k - i) hay) = true
    /\ forall j, j < k - i -> startswith needle (skipn j hay) = false.
Proof.
  induction hay as [|c hay IH]; intros i k; unfold find_from; fold find_from.
  - destruct (startswith needle []) eqn:E; [|discriminate].
    intros [= <-]. rewrite Nat.sub_diag. repeat split; [lia|exact E|lia].
  - destruct (startswith needle (c :: hay)) eqn:E.
    + intros [= <-]. rewrite Nat.sub_diag. repeat split; [lia|exact E|lia].
    + intros H. destruct (IH _ _ H) as [Hle [Hat Hbefore]].
      replace (k - i) with (S (k - S i)) by lia.
      repeat split; [lia|exact Hat|].
      intros [|j] Hj; [exact E|]. apply Hbefore. lia.
Qed.

Lemma find_some_inv (needle hay : text) (k : nat) :
  find needle hay = Some k ->
  startswith needle (skipn k hay) = true
  /\ forall j, j < k -> startswith needle (skipn j hay) = false.
Proof.
  intros H. apply find_from_some_inv in H as [_ H].
  now rewrite Nat.sub_0_r in H.
Qed.

(** An occurrence found stays the first one in what is left after
    cutting off a prefix that ends before it. *)
Lemma find_skipn (needle hay : text) (k j : nat) :
  find needle hay = Some k -> j <= k ->
  find needle (skipn j hay) = Some (k - j).
Proof.
  intros H Hj. destruct (find_some_inv _ _ _ H) as [Hat Hbefore].
  apply find_first.
  - rewrite skipn_skipn. now replace (k - j + j) with k by lia.
  - intros i Hi. rewrite skipn_skipn. apply Hbefore. lia.
Qed.

(** Stripping. *)
Lemma lstrip_id (t : text) : nonspace_head t = true -> lstrip t = t.
Proof.
  destruct t as [|c t]; simpl; [reflexivity|].
  now destruct (isspace c).
Qed.

Lemma lstrip_spaces (k : nat) (t : text) :
  lstrip (repeat 32%N k ++ t) = lstrip t.
Proof. induction k as [|k IH]; simpl; [reflexivity|exact IH]. Qed.

Lemma rev_repeat {A} (x : A) (k : nat) : rev (repeat x k) = repeat x k.
Proof.
  induction k as [|k IH]; simpl; [reflexivity|].
  rewrite IH. clear IH. induction k as [|k IH]; simpl; [reflexivity|].
  now rewrite IH.
Qed.

Lemma rstrip_padded (t : text) (k : nat) :
  nonspace_head (rev t) = true -> rstrip (t ++ repeat 32%N k) = t.
Proof.
  intros H. unfold rstrip.
  rewrite rev_app_distr, rev_repeat, lstrip_spaces, lstrip_id by exact H.
  apply rev_involutive.
Qed.

Lemma strip_padded (t : text) (k : nat) :
  nonspace_head t = true -> nonspace_head (rev t) = true ->
  strip (t ++ repeat 32%N k) = t.
Proof.
  intros Hh Hl. unfold strip.
  destruct t as [|c t].
  - simpl. rewrite <- (app_nil_r (repeat 32%N k)), lstrip_spaces. reflexivity.
  - rewrite lstrip_id; [now apply rstrip_padded|].
    simpl in *. exact Hh.
Qed.

Lemma strip_clean (t : text) :
  nonspace_head t = true -> nonspace_head (rev t) = true -> strip t = t.
Proof.
  intros Hh Hl. rewrite <- (app_nil_r t) at 1.
  now apply (strip_padded t 0).
Qed.

(** UTF-8 on ASCII text. *)
Lemma encode_ascii (t : text) : isascii t = true -> encode t = Some t.
Proof.
  induction t as [|c t IH]; simpl; [reflexivity|].
  intros H. apply andb_true_iff in H as [Hc Ht].
  unfold encode_char. rewrite Hc, (IH Ht). reflexivity.
Qed.

Lemma decode_ascii (b : bytes) : isascii b = true -> decode_ignore b = b.
Proof.
  induction b as [|c b IH]; simpl; [reflexivity|].
  intros H. apply andb_true_iff in H as [Hc Hb].
  rewrite Hc, (IH Hb). reflexivity.
Qed.

Lemma isascii_app (a b : text) :
  isascii (a ++ b) = isascii a && isascii b.
Proof. apply forallb_app. Qed.

Lemma isascii_repeat (k : nat) : isascii (repeat 32%N k) = true.
Proof. induction k; simpl; auto. Qed.

(** Decide each comparison of the goal by cases. *)
Ltac decide_tests :=
  repeat first
    [ progress cbn [negb orb andb]
    | match goal with
      | |- context [(?a <? ?b)%N] => destruct (N.ltb_spec a b); try lia
      | |- context [(?a <=? ?b)%N] => destruct (N.leb_spec a b); try lia
      | |- context [(?a =? ?b)%N] => destruct (N.eqb_spec a b); try lia
      end ].

(** Decoding what [encode] made of one character gives it back and
    goes on with the rest. *)
Lemma decode_encode_char (c : N) (bs rest : bytes) :
  encode_char c = Some bs ->
  decode_ignore (bs ++ rest) = c :: decode_ignore rest.
Proof.
  unfold encode_char.
  pose proof (N.div_mod c 64 ltac:(discriminate)) as D0.
  pose proof (N.mod_lt c 64 ltac:(discriminate)) as M0.
  pose proof (N.div_mod (c / 64) 64 ltac:(discriminate)) as D1.
  pose proof (N.mod_lt (c / 64) 64 ltac:(discriminate)) as M1.
  pose proof (N.div_mod (c / 4096) 64 ltac:(discriminate)) as D2.
  pose proof (N.mod_lt (c / 4096) 64 ltac:(discriminate)) as M2.
  assert (E1 : (c / 64 / 64 = c / 4096)%N) by (now rewrite N.Div0.div_div).
  assert (E2 : (c / 4096 / 64 = c / 262144)%N) by (now rewrite N.Div0.div_div).
  rewrite E1 in D1. rewrite E2 in D2. clear E1 E2.
  remember ((c / 64) mod 64)%N as r1 eqn:R1.
  remember ((c / 4096) mod 64)%N as r2 eqn:R2.
  remember (c mod 64)%N as r0 eqn:R0.
  remember (c / 64)%N as q0 eqn:Q0.
  remember (c / 4096)%N as q1 eqn:Q1.
  remember (c / 262144)%N as q2 eqn:Q2.
  clear R0 R1 R2 Q0 Q1 Q2.
  destruct (N.ltb_spec c 128) as [H1|H1].
  { intros Hb. assert (bs = [c]) by congruence. subst bs. clear Hb.
    cbn [app decode_ignore]. decide_tests. reflexivity. }
  destruct (N.ltb_spec c 2048) as [H2|H2].
  { remember (192 + q0)%N as b1 eqn:B1.
    remember (128 + r0)%N as b2 eqn:B2.
    intros Hb. assert (bs = [b1; b2]) by congruence. subst bs. clear Hb.
    cbn [app decode_ignore]. unfold is_cont. decide_tests; f_equal; lia. }
  destruct (N.ltb_spec c 65536) as [H3|H3].
  { destruct ((55296 <=? c) && (c <=? 57343))%N eqn:S; [discriminate|].
    assert (HS : (c < 55296 \/ 57343 < c)%N).
    { apply andb_false_iff in S as [S|S];
        [left; now apply N.leb_gt|right; now apply N.leb_gt]. }
    remember (224 + q1)%N as b1 eqn:B1.
    remember (128 + r1)%N as b2 eqn:B2.
    remember (128 + r0)%N as b3 eqn:B3.
    intros Hb. assert (bs = [b1; b2; b3]) by congruence. subst bs. clear Hb.
    cbn [app decode_ignore]. unfold is_cont. decide_tests; f_equal; lia. }
  destruct (N.ltb_spec c 1114112) as [H4|H4]; [|discriminate].
  remember (240 + q2)%N as b1 eqn:B1.
  remember (128 + r2)%N as b2 eqn:B2.
  remember (128 + r1)%N as b3 eqn:B3.
  remember (128 + r0)%N as b4 eqn:B4.
  intros Hb. assert (bs = [b1; b2; b3; b4]) by congruence. subst bs. clear Hb.
  cbn [app decode_ignore]. unfold is_cont. decide_tests; f_equal; lia.
Qed.

Lemma decode_encode_app (t : text) :
  forall (bs rest : bytes),
    encode t = Some bs ->
    decode_ignore (bs ++ rest) = t ++ decode_ignore rest.
Proof.
  induction t as [|c t IH]; intros bs rest; simpl.
  - now intros [= <-].
  - destruct (encode_char c) as [b|] eqn:Ec; [|discriminate].
    destruct (encode t) as [bt|] eqn:Et; [|discriminate].
    intros [= <-]. rewrite <- app_assoc.
    rewrite (decode_encode_char c b _ Ec). now rewrite (IH bt rest).
Qed.

(** * The framing markers *)

Lemma START_MARK_chars : START_MARK = [60; 83; 84; 65; 82; 84; 62]%N.
Proof. reflexivity. Qed.

Lemma END_MARK_chars : END_MARK = [60; 69; 78; 68; 62]%N.
Proof. reflexivity. Qed.

Lemma startswith_app_fits (p a b : text) :
  startswith p (a ++ b) = true -> length p <= length a ->
  startswith p a = true.
Proof.
  intros H Hl.
  apply (startswith_firstn_fits _ _ (length a)) in H; [|exact Hl].
  now rewrite firstn_app, Nat.sub_diag, firstn_all, app_nil_r in H.
Qed.

Lemma startswith_seam (p a b : text) :
  startswith p (a ++ b) = true -> length a < length p ->
  nth (length a) p 0%N = nth 0 b 0%N.
Proof.
  intros H Hl.
  rewrite <- (startswith_nth _ _ (length a) H Hl).
  rewrite app_nth2 by lia. now rewrite Nat.sub_diag.
Qed.

(** In [y ++ "<END>"] the end marker is found where it was appended,
    provided [y] holds none. *)
Lemma find_end_appended (y : text) :
  contains END_MARK y = false -> find END_MARK (y ++ END_MARK) = Some (length y).
Proof.
  intros Hy. apply find_first.
  - rewrite skipn_app, Nat.sub_diag, skipn_all. reflexivity.
  - intros j Hj.
    destruct (startswith END_MARK (skipn j (y ++ END_MARK))) eqn:E; [|reflexivity].
    exfalso. rewrite skipn_app in E.
    replace (j - length y) with 0 in E by lia. simpl skipn in E.
    destruct (Nat.le_gt_cases (length END_MARK) (length (skipn j y))) as [Hfit|Hcut].
    + apply startswith_app_fits in E; [|exact Hfit].
      rewrite contains_false in Hy. now rewrite Hy in E.
    + apply startswith_seam in E; [|exact Hcut].
      rewrite length_skipn in *. rewrite END_MARK_chars in *. simpl length in Hcut.
      remember (length y - j) as d eqn:Hd.
      do 5 (destruct d as [|d]; [simpl in E; try discriminate; lia|]).
      simpl in Hcut. lia.
Qed.

(** * Sender and receiver, packet by packet *)

Lemma process_collect (buf c : text) :
  contains START_MARK c = false -> contains END_MARK c = false ->
  Rx.process (Rx.mkState buf true) c = (Rx.mkState (buf ++ c) true, None).
Proof. intros Hs He. unfold Rx.process. now rewrite Hs, He. Qed.

Lemma process_final (buf c : text) (k : nat) :
  contains START_MARK c = false -> find END_MARK c = Some k ->
  Rx.process (Rx.mkState buf true) c = (Rx.initial, Some (buf ++ firstn k c)).
Proof.
  intros Hs He. destruct (contains_index _ _ _ He) as [Hc Hi].
  unfold Rx.process. now rewrite Hs, Hc, Hi.
Qed.

Lemma process_start (st : Rx.state) (r : text) :
  Rx.process st (START_MARK ++ r) =
  if contains END_MARK r
  then (Rx.initial, Some (firstn (index_of END_MARK r) r))
  else (Rx.mkState r true, None).
Proof.
  destruct (contains_index _ _ _ (find_prefix START_MARK r)) as [Hc Hi].
  unfold Rx.process. rewrite Hc, Hi. unfold slice_from, slice_to.
  rewrite Nat.add_0_l, skipn_app, Nat.sub_diag, skipn_all. simpl.
  now destruct (contains END_MARK r).
Qed.

Lemma rx_run_cons (size : nat) (st : Rx.state) (d : bytes) (ds : list bytes) :
  Rx.run size st (d :: ds)
  = (fst (Rx.run size (fst (Rx.step size st d)) ds),
     match snd (Rx.step size st d) with
     | Some m => m :: snd (Rx.run size (fst (Rx.step size st d)) ds)
     | None => snd (Rx.run size (fst (Rx.step size st d)) ds)
     end).
Proof.
  cbn [Rx.run]. destruct (Rx.step size st d) as [st1 out]. cbn [fst snd].
  now destruct (Rx.run size st1 ds).
Qed.

Lemma split_pad_nil (fuel size : nat) : Tx.split_pad fuel size [] = [].
Proof. now destruct fuel. Qed.

Lemma split_pad_last (fuel size : nat) (x : bytes) :
  x <> [] -> length x <= size ->
  Tx.split_pad (S fuel) size x = [x ++ repeat 32%N (size - length x)].
Proof.
  intros Hx Hl. destruct x as [|b x]; [congruence|].
  unfold Tx.split_pad; fold Tx.split_pad. unfold slice_to, slice_from, ljust.
  rewrite firstn_all2 by exact Hl. rewrite skipn_all2 by exact Hl.
  rewrite split_pad_nil.
  destruct (length (b :: x) <? size) eqn:E; [reflexivity|].
  apply Nat.ltb_ge in E. replace (size - length (b :: x)) with 0 by lia.
  simpl. now rewrite app_nil_r.
Qed.

Lemma split_pad_more (fuel size : nat) (x : bytes) :
  size < length x ->
  Tx.split_pad (S fuel) size x =
  firstn size x :: Tx.split_pad fuel size (skipn size x).
Proof.
  intros Hl. destruct x as [|b x]; [simpl in Hl; lia|].
  unfold Tx.split_pad; fold Tx.split_pad. unfold slice_to, slice_from.
  rewrite length_firstn, (Nat.min_l size) by lia.
  now rewrite Nat.ltb_irrefl.
Qed.

(** The fuel [length full_bytes] is enough: the packets are all of the
    packet size and, read back to back, begin with the bytes given. *)
Lemma split_pad_covers (size : nat) :
  0 < size ->
  forall (fuel : nat) (full_bytes : bytes),
    length full_bytes <= fuel ->
    firstn (length full_bytes) (concat (Tx.split_pad fuel size full_bytes))
    = full_bytes
    /\ Forall (fun p => length p = size) (Tx.split_pad fuel size full_bytes).
Proof.
  intros Hsize. induction fuel as [|fuel IH]; intros bs Hl.
  - destruct bs; [split; [reflexivity|constructor]|simpl in Hl; lia].
  - destruct bs as [|b bs]; [rewrite split_pad_nil; split; [reflexivity|constructor]|].
    destruct (Nat.le_gt_cases (length (b :: bs)) size) as [Hlast|Hmore].
    + rewrite split_pad_last by (congruence || assumption).
      split.
      * cbn [concat]. rewrite app_nil_r, firstn_app, Nat.sub_diag, firstn_all.
        cbn [firstn]. now rewrite app_nil_r.
      * constructor; [|constructor].
        rewrite length_app, repeat_length. lia.
    + rewrite split_pad_more by exact Hmore.
      destruct (IH (skipn size (b :: bs))) as [IH1 IH2];
        [rewrite length_skipn; cbn [length] in *; lia|].
      split.
      * cbn [concat]. rewrite firstn_app, length_firstn.
        rewrite (Nat.min_l size) by lia.
        rewrite (firstn_all2 (firstn size (b :: bs)))
          by (rewrite length_firstn; lia).
        rewrite length_skipn in IH1. rewrite IH1.
        apply firstn_skipn.
      * constructor; [|exact IH2]. rewrite length_firstn. lia.
Qed.

(** ** Segments: the text each packet holds *)

Lemma encode_app (a b : text) :
  encode (a ++ b)
  = match encode a, encode b with
    | Some x, Some y => Some (x ++ y)
    | _, _ => None
    end.
Proof.
  induction a as [|c a IH]; simpl.
  - now destruct (encode b).
  - destruct (encode_char c) as [bc|]; [|reflexivity].
    rewrite IH. destruct (encode a), (encode b); try reflexivity.
    now rewrite app_assoc.
Qed.

Lemma encode_char_length (c : N) (b : bytes) :
  encode_char c = Some b -> 0 < length b.
Proof.
  unfold encode_char.
  repeat match goal with
         | |- context [if ?x then _ else _] => destruct x
         end;
    intros [= <-]; simpl; lia.
Qed.

Lemma encode_nonempty (p : text) (bp : bytes) :
  encode p = Some bp -> p <> [] -> bp <> [].
Proof.
  destruct p as [|c p]; [congruence|]. simpl.
  destruct (encode_char c) as [b|] eqn:Ec; [|discriminate].
  destruct (encode p); [|discriminate].
  intros [= <-] _ E. apply encode_char_length in Ec.
  apply (f_equal (@length _)) in E. rewrite length_app in E. simpl in E. lia.
Qed.

(** A segment is a prefix of the text, and its encoding fills the room
    left unless the text ends first. *)
Lemma take_piece_spec (t : text) :
  forall (room : nat) (p r : text),
    take_piece room t = Some (p, r) ->
    t = p ++ r
    /\ exists bp, encode p = Some bp
                  /\ length bp <= room
                  /\ (r = [] \/ length bp = room).
Proof.
  induction t as [|c t IH]; intros room p r; cbn [take_piece].
  - intros [= <- <-]. split; [reflexivity|]. exists []. repeat split; auto with arith.
  - destruct (room =? 0) eqn:E0.
    + apply Nat.eqb_eq in E0. intros [= <- <-]. split; [reflexivity|].
      exists []. simpl. repeat split; [lia|right; lia].
    + destruct (encode_char c) as [b|] eqn:Ec; [|discriminate].
      destruct (length b <=? room) eqn:El; [|discriminate].
      apply Nat.leb_le in El.
      destruct (take_piece (room - length b) t) as [[p' r']|] eqn:Et;
        [|discriminate].
      intros [= <- <-].
      destruct (IH _ _ _ Et) as [-> [bp [Hbp [Hle Hfull]]]].
      split; [reflexivity|]. exists (b ++ bp). simpl. rewrite Ec, Hbp.
      rewrite length_app. repeat split; [lia|].
      destruct Hfull as [->|Hfull]; [now left|right; lia].
Qed.

Lemma take_piece_nonempty (room : nat) (c : N) (t p r : text) :
  0 < room -> take_piece room (c :: t) = Some (p, r) -> p <> [].
Proof.
  intros Hroom. cbn [take_piece].
  destruct (room =? 0) eqn:E0; [apply Nat.eqb_eq in E0; lia|].
  destruct (encode_char c); [|discriminate].
  destruct (_ <=? _); [|discriminate].
  destruct (take_piece _ t) as [[p' r']|]; [|discriminate].
  intros [= <- <-]. discriminate.
Qed.

Lemma take_piece_ascii (room : nat) (c : N) (t : text) :
  (c <? 128)%N = true ->
  take_piece (S room) (c :: t)
  = match take_piece room t with
    | Some (p, r) => Some (c :: p, r)
    | None => None
    end.
Proof.
  intros Hc. cbn [take_piece Nat.eqb]. unfold encode_char. rewrite Hc.
  cbn [length Nat.leb].
  replace (S room - 1) with room by lia. reflexivity.
Qed.

Lemma take_piece_start (n : nat) (x : text) :
  take_piece (7 + n) (START_MARK ++ x)
  = match take_piece n x with
    | Some (p, r) => Some (START_MARK ++ p, r)
    | None => None
    end.
Proof.
  rewrite START_MARK_chars. cbn [app Nat.add].
  rewrite !take_piece_ascii by reflexivity.
  now destruct (take_piece n x) as [[p r]|].
Qed.

(** The sender's packets hold the segments, one each. *)
Lemma pieces_carried (size : nat) :
  0 < size ->
  forall (fuel : nat) (t : text) (ps : list text),
    length t <= fuel ->
    pieces fuel size t = Some ps ->
    concat ps = t
    /\ exists bs,
        encode t = Some bs
        /\ forall fuel2, length bs <= fuel2 ->
                         Forall2 (carries size) ps (Tx.split_pad fuel2 size bs).
Proof.
  intros Hsize. induction fuel as [|fuel IH]; intros t ps Hl.
  - destruct t; [|simpl in Hl; lia]. intros [= <-].
    split; [reflexivity|]. exists []. split; [reflexivity|].
    intros fuel2 _. rewrite split_pad_nil. constructor.
  - destruct t as [|c t].
    { intros [= <-]. split; [reflexivity|]. exists []. split; [reflexivity|].
      intros fuel2 _. rewrite split_pad_nil. constructor. }
    cbn [pieces].
    destruct (take_piece size (c :: t)) as [[p r]|] eqn:Etp; [|discriminate].
    destruct (pieces fuel size r) as [ps'|] eqn:Eps; [|discriminate].
    intros [= <-].
    pose proof (take_piece_nonempty _ _ _ _ _ Hsize Etp) as Hp.
    destruct (take_piece_spec _ _ _ _ Etp) as [Hsplit [bp [Hbp [Hle Hfull]]]].
    pose proof (encode_nonempty _ _ Hbp Hp) as Hbpne.
    assert (Hlr : length r <= fuel).
    { apply (f_equal (@length _)) in Hsplit. rewrite length_app in Hsplit.
      destruct p; [congruence|]. simpl in *. lia. }
    destruct (IH r ps' Hlr Eps) as [Hcat [br [Hbr Hpk]]].
    split; [cbn [concat]; now rewrite Hcat|].
    exists (bp ++ br). split; [now rewrite Hsplit, encode_app, Hbp, Hbr|].
    intros fuel2 Hf2. rewrite length_app in Hf2.
    assert (Hbp1 : 0 < length bp) by (destruct bp; [congruence|simpl; lia]).
    destruct fuel2 as [|fuel2]; [lia|].
    destruct r as [|c' r].
    + assert (ps' = []) by (destruct fuel; simpl in Eps; congruence).
      assert (br = []) by (simpl in Hbr; congruence). subst ps' br.
      rewrite app_nil_r, split_pad_last by assumption.
      constructor; [|constructor].
      exists bp, (size - length bp). repeat split; [exact Hbp|].
      rewrite length_app, repeat_length. lia.
    + destruct Hfull as [Hfull|Hfull]; [discriminate|].
      assert (Hbrne : br <> []) by (apply (encode_nonempty _ _ Hbr); discriminate).
      assert (Hbr1 : 0 < length br) by (destruct br; [congruence|simpl; lia]).
      rewrite split_pad_more by (rewrite length_app; lia).
      assert (Hhead : firstn size (bp ++ br) = bp).
      { rewrite <- Hfull, firstn_app, Nat.sub_diag, firstn_all. simpl.
        now rewrite app_nil_r. }
      assert (Htail : skipn size (bp ++ br) = br).
      { now rewrite <- Hfull, skipn_app, Nat.sub_diag, skipn_all. }
      rewrite Hhead, Htail.
      constructor; [|apply Hpk; lia].
      exists bp, 0. cbn [repeat]. rewrite app_nil_r. now repeat split.
Qed.

(** What the receiver reads off a packet is the segment it holds. *)
Lemma chunk_of_carried (size : nat) (p : text) (d : bytes) :
  carries size p d -> clean_edges p = true -> Rx.chunk_of size d = p.
Proof.
  intros [bp [k [Hbp [-> Hl]]]] Hc.
  apply andb_true_iff in Hc as [Hh Ht].
  unfold Rx.chunk_of, slice_to. rewrite firstn_all2 by lia.
  rewrite (decode_encode_app p bp _ Hbp).
  rewrite decode_ascii by apply isascii_repeat.
  now apply strip_padded.
Qed.

Lemma closes_split (p : text) :
  closes p = true ->
  exists y, p = y ++ END_MARK /\ find END_MARK p = Some (length y).
Proof.
  unfold closes. destruct (find END_MARK p) as [k|] eqn:Ef; [|discriminate].
  intros Hk. apply Nat.eqb_eq in Hk.
  destruct (find_some_inv _ _ _ Ef) as [Hat _].
  destruct (startswith_true _ _ Hat) as [r Hr].
  assert (Hlen : length (skipn k p) = length END_MARK)
    by (rewrite length_skipn; lia).
  rewrite Hr, length_app in Hlen.
  destruct r; [|simpl in Hlen; lia]. rewrite app_nil_r in Hr.
  exists (firstn k p). split.
  - now rewrite <- Hr, firstn_skipn.
  - rewrite length_firstn, Nat.min_l by lia. reflexivity.
Qed.

(** The receiver, collecting, fed the packets that hold the remaining
    segments of a wrapped message: it relays what it held followed by
    their text up to the closing marker. *)
Lemma run_rest (size : nat) (ps : list text) (pkts : list bytes) :
  Forall2 (carries size) ps pkts ->
  forall buf,
    forallb clean_edges ps = true ->
    forallb (fun p => negb (contains START_MARK p)) ps = true ->
    only_last_ends ps = true ->
    exists y,
      concat ps = y ++ END_MARK
      /\ Rx.run size (Rx.mkState buf true) pkts = (Rx.initial, [buf ++ y]).
Proof.
  induction 1 as [|p d ps pkts Hc Hrest IH]; intros buf Hclean Hns Hends;
    [discriminate|].
  cbn [forallb] in Hclean, Hns.
  apply andb_true_iff in Hclean as [Hcp Hclean].
  apply andb_true_iff in Hns as [Hnp Hns]. apply negb_true_iff in Hnp.
  rewrite rx_run_cons. unfold Rx.step.
  rewrite (chunk_of_carried _ _ _ Hc Hcp).
  destruct ps as [|p' ps'].
  - inversion Hrest; subst. cbn [only_last_ends] in Hends.
    destruct (closes_split _ Hends) as [y [Hy Hf]].
    rewrite (process_final _ _ _ Hnp Hf). cbn [fst snd Rx.run concat].
    exists y. rewrite app_nil_r. split; [exact Hy|].
    rewrite Hy at 1. rewrite firstn_app, Nat.sub_diag, firstn_all. simpl.
    now rewrite app_nil_r.
  - change (only_last_ends (p :: p' :: ps'))
      with (negb (contains END_MARK p) && only_last_ends (p' :: ps')) in Hends.
    apply andb_true_iff in Hends as [Hep Hends]. apply negb_true_iff in Hep.
    rewrite (process_collect _ _ Hnp Hep). cbn [fst snd].
    destruct (IH (buf ++ p) Hclean Hns Hends) as [y [Hy Hrun]].
    exists (p ++ y). split.
    + cbn [concat] in *. now rewrite Hy, app_assoc.
    + now rewrite Hrun, app_assoc.
Qed.

(** * The framer *)

(** C1 (as amended).  Round trip of the framer: for every message and
    every packet size that keeps the start marker in the first packet,
    such that cutting the encoded wrapped message into packets cuts no
    character, leaves no whitespace at either end of a segment, puts no
    start marker inside a later segment and no end marker inside a
    segment other than the closing one at the end of the last, the
    receiver fed the sender's packets in order relays exactly the
    message (and is idle again). *)
Theorem roundtrip_clean_seams (message : text) (size : nat) :
  length START_MARK <= size ->
  clean_seams size message = true ->
  reassembles size message.
Proof.
  intros Hsize Hclean.
  assert (H7 : length START_MARK = 7) by reflexivity.
  unfold clean_seams in Hclean. cbv zeta in Hclean.
  set (w := START_MARK ++ message ++ END_MARK) in *.
  destruct (pieces (length w) size w) as [ps|] eqn:Eps; [|discriminate].
  apply andb_true_iff in Hclean as [Hclean Hends].
  apply andb_true_iff in Hclean as [Hws Hns].
  destruct (pieces_carried size ltac:(lia) (length w) w ps (le_n _) Eps)
    as [Hcat [bs [Henc Hpk]]].
  specialize (Hpk (length bs) (le_n _)).
  unfold reassembles, Tx.packets. fold w. rewrite Henc.
  destruct (size =? 0) eqn:E0; [apply Nat.eqb_eq in E0; lia|].
  eexists; split; [reflexivity|].
  (* the first segment opens with the start marker *)
  assert (Hfirst : exists p0 ps', ps = (START_MARK ++ p0) :: ps').
  { assert (Hlw : length w = S (6 + length (message ++ END_MARK)))
      by (unfold w; rewrite length_app, H7; reflexivity).
    rewrite Hlw in Eps. replace size with (7 + (size - 7)) in Eps by lia.
    unfold w in Eps.
    change (pieces (S ?f) ?s (START_MARK ++ ?x))
      with (match take_piece s (START_MARK ++ x) with
            | Some (p, r) =>
                match pieces f s r with
                | Some ps => Some (p :: ps)
                | None => None
                end
            | None => None
            end) in Eps.
    rewrite take_piece_start in Eps.
    destruct (take_piece _ (message ++ END_MARK)) as [[p0 r]|]; [|discriminate].
    destruct (pieces _ _ r) as [ps'|]; [|discriminate].
    injection Eps as <-. now exists p0, ps'. }
  destruct Hfirst as [p0 [ps' ->]].
  cbn [forallb tl] in Hws, Hns. apply andb_true_iff in Hws as [Hw0 Hws].
  remember (START_MARK ++ p0) as q0 eqn:Hq0.
  inversion Hpk as [|? d ? ds Hc0 Hrest Heq1 Heq2]; subst.
  rewrite rx_run_cons. unfold Rx.step.
  rewrite (chunk_of_carried _ _ _ Hc0 Hw0), process_start.
  cbn [concat] in Hcat. unfold w in Hcat. rewrite <- app_assoc in Hcat.
  apply app_inv_head in Hcat.
  destruct ps' as [|p1 ps''].
  - (* the whole wrapped message travels in one packet *)
    inversion Hrest; subst. cbn [concat] in Hcat. rewrite app_nil_r in Hcat.
    subst p0. cbn [only_last_ends] in Hends.
    destruct (closes_split _ Hends) as [y [Hy Hf]].
    rewrite app_assoc in Hy. apply app_inv_tail in Hy.
    assert (Hly : length y = 7 + length message)
      by (rewrite <- Hy, length_app, H7; reflexivity).
    apply (find_skipn _ _ _ 7) in Hf; [|lia].
    change (skipn 7 (START_MARK ++ message ++ END_MARK))
      with (message ++ END_MARK) in Hf.
    replace (length y - 7) with (length message) in Hf by lia.
    destruct (contains_index _ _ _ Hf) as [-> ->].
    rewrite firstn_app, Nat.sub_diag, firstn_all. simpl.
    now rewrite app_nil_r.
  - (* several packets: the first opens the message, the rest close it *)
    change (only_last_ends ((START_MARK ++ p0) :: p1 :: ps''))
      with (negb (contains END_MARK (START_MARK ++ p0))
            && only_last_ends (p1 :: ps'')) in Hends.
    apply andb_true_iff in Hends as [He0 Hends]. apply negb_true_iff in He0.
    apply (contains_skipn _ _ 7) in He0.
    change (skipn 7 (START_MARK ++ p0)) with p0 in He0.
    rewrite He0. cbn [fst snd].
    destruct (run_rest _ _ _ Hrest p0 Hws Hns Hends) as [y [Hy Hrun]].
    rewrite Hrun. rewrite Hy, app_assoc in Hcat. apply app_inv_tail in Hcat.
    now rewrite Hcat.
Qed.

Lemma roundtrip_clean_seams_witness :
  reassembles 16 (252%N :: START_MARK ++ lit "ab").
Proof.
  apply roundtrip_clean_seams; [apply Nat.leb_le|]; reflexivity.
Defined.

(** C1 (as stated) fails.  With the scripts' own packet size a message
    that holds the end marker is cut short at it.  With other sizes:
    packets shorter than the start marker relay nothing; a cut inside
    the closing end marker leaves the receiver collecting for ever; a
    cut next to a space loses the space; a cut inside a character loses
    the character; a start marker wholly inside a later packet drops
    what came before it.  A lone surrogate cannot be encoded at all. *)
Lemma roundtrip_counterexample :
  (exists pkts,
      Tx.packets Tx.PACKET_SIZE (lit "a<END>b") = Some pkts /\
      Rx.run Rx.PACKET_SIZE Rx.initial pkts = (Rx.initial, [lit "a"]) /\
      text_eqb (lit "a") (lit "a<END>b") = false)
  /\
  (exists pkts,
      Tx.packets 4 (lit "hi") = Some pkts /\
      snd (Rx.run 4 Rx.initial pkts) = [])
  /\
  (exists pkts,
      Tx.packets 14 (lit "hello") = Some pkts /\
      Rx.run 14 Rx.initial pkts = (Rx.mkState (lit "hello<END>") true, []))
  /\
  (exists pkts,
      Tx.packets 10 (lit "ab cd") = Some pkts /\
      Rx.run 10 Rx.initial pkts = (Rx.initial, [lit "abcd"]))
  /\
  (exists pkts,
      Tx.packets 8 [233%N] = Some pkts /\
      Rx.run 8 Rx.initial pkts = (Rx.initial, [[]]))
  /\
  (exists pkts,
      Tx.packets 9 (lit "ab<START>cd") = Some pkts /\
      Rx.run 9 Rx.initial pkts = (Rx.initial, [lit "cd"]))
  /\
  Tx.packets Tx.PACKET_SIZE [55296%N] = None.
Proof.
  repeat split; try (eexists; repeat split); vm_compute; reflexivity.
Qed.

(** C2 fails on the code.  [strip()] removes whitespace at both ends of
    the decoded packet, not only the sender's trailing pad: a packet
    whose content begins with a space loses it, so a message cut just
    before a space is relayed with the two words run together. *)
Theorem strip_drops_leading_whitespace :
  Rx.chunk_of Rx.PACKET_SIZE (Rx.datagram " tail<END>   ") = lit "tail<END>"
  /\
  Rx.chunk_of Rx.PACKET_SIZE (9%N :: Rx.datagram "a  b" ++ [10; 32]%N)
  = lit "a  b"
  /\
  (exists pkts,
      Tx.packets Tx.PACKET_SIZE (repeat 120%N 793 ++ lit " tail") = Some pkts /\
      Rx.run Rx.PACKET_SIZE Rx.initial pkts
      = (Rx.initial, [repeat 120%N 793 ++ lit "tail"]))
  /\
  (exists pkts,
      Tx.packets 9 (lit "a b") = Some pkts /\
      pkts = [Rx.datagram "<START>a "; Rx.datagram "b<END>   "] /\
      Rx.run 9 Rx.initial pkts = (Rx.initial, [lit "ab"])).
Proof.
  split; [vm_compute; reflexivity|].
  split; [vm_compute; reflexivity|].
  split; eexists; repeat split; vm_compute; reflexivity.
Qed.

(** C6.  A packet that holds a start marker makes the receiver forget
    whatever it had collected: its next state and output depend on the
    text after that marker only.  In particular ["<START>AB"] followed
    by ["<START>CD<END>"] relays exactly ["CD"]. *)
Theorem start_marker_discards_buffer :
  (forall (st : Rx.state) (chunk : text),
      contains START_MARK chunk = true ->
      Rx.process st chunk =
      let tail :=
        slice_from (index_of START_MARK chunk + length START_MARK) chunk in
      if contains END_MARK tail
      then (Rx.initial, Some (slice_to (index_of END_MARK tail) tail))
      else (Rx.mkState tail true, None))
  /\
  (forall (st st' : Rx.state) (chunk : text),
      contains START_MARK chunk = true ->
      Rx.process st chunk = Rx.process st' chunk)
  /\
  Rx.step Rx.PACKET_SIZE Rx.initial (Rx.datagram "<START>AB")
  = (Rx.mkState (lit "AB") true, None)
  /\
  Rx.run Rx.PACKET_SIZE Rx.initial
         [Rx.datagram "<START>AB"; Rx.datagram "<START>CD<END>"]
  = (Rx.initial, [lit "CD"]).
Proof.
  split; [|split; [|split; vm_compute; reflexivity]].
  - intros st chunk Hc. unfold Rx.process. rewrite Hc. cbv zeta.
    now destruct (contains END_MARK _).
  - intros st st' chunk Hc. unfold Rx.process. now rewrite Hc.
Qed.

Lemma start_marker_discards_buffer_witness :
  Rx.process (Rx.mkState (lit "AB") true) (lit "<START>CD<END>")
  = (Rx.initial, Some (lit "CD")).
Proof.
  rewrite (proj1 start_marker_discards_buffer) by reflexivity.
  reflexivity.
Defined.

(** An occurrence found in [a] is still the first one when text is
    appended to [a]. *)
Lemma find_app_l (needle a x : text) (e : nat) :
  find needle a = Some e -> find needle (a ++ x) = Some e.
Proof.
  intros H. destruct (find_some_inv _ _ _ H) as [Hat Hbefore].
  pose proof (startswith_length _ _ Hat) as Hlen. rewrite length_skipn in Hlen.
  apply find_first.
  - destruct (startswith_true _ _ Hat) as [r Hr].
    rewrite skipn_app, Hr, <- app_assoc. apply startswith_app.
  - intros j Hj.
    destruct (startswith needle (skipn j (a ++ x))) eqn:E; [|reflexivity].
    rewrite skipn_app in E. apply startswith_app_fits in E.
    + now rewrite Hbefore in E.
    + rewrite length_skipn. lia.
Qed.

(** No end marker begins inside a start marker or runs into one: in
    [a ++ "<START>" ++ b] the first end marker is the first of [b]
    when [a] holds none. *)
Lemma find_end_after_start (a b : text) (e : nat) :
  contains END_MARK a = false -> find END_MARK b = Some e ->
  find END_MARK (a ++ START_MARK ++ b)
  = Some (length a + length START_MARK + e).
Proof.
  intros Ha Hb. destruct (find_some_inv _ _ _ Hb) as [Hat Hbefore].
  assert (H7 : length START_MARK = 7) by reflexivity.
  apply find_first.
  - rewrite app_assoc, skipn_app, length_app.
    rewrite skipn_all2 by (rewrite length_app; lia).
    now replace (length a + length START_MARK + e
                 - (length a + length START_MARK)) with e by lia.
  - intros j Hj.
    destruct (startswith END_MARK (skipn j (a ++ START_MARK ++ b))) eqn:E;
      [|reflexivity].
    exfalso. rewrite skipn_app in E.
    destruct (Nat.lt_ge_cases j (length a)) as [Hin|Hout].
    + (* the occurrence would begin inside [a] *)
      replace (j - length a) with 0 in E by lia. cbn [skipn] in E.
      destruct (Nat.le_gt_cases (length END_MARK) (length (skipn j a)))
        as [Hfit|Hcut].
      * apply startswith_app_fits in E; [|exact Hfit].
        rewrite contains_false in Ha. now rewrite Ha in E.
      * apply startswith_seam in E; [|exact Hcut].
        rewrite length_skipn in *.
        rewrite START_MARK_chars, END_MARK_chars in *. simpl length in Hcut.
        remember (length a - j) as d eqn:Hd.
        do 5 (destruct d as [|d]; [simpl in E; try discriminate; lia|]).
        simpl in Hcut. lia.
    + rewrite skipn_all2 in E by lia. cbn [app] in E.
      rewrite skipn_app, H7 in E.
      destruct (Nat.lt_ge_cases (j - length a) 7) as [Hmark|Hpast].
      * (* ... or inside the start marker *)
        replace (j - length a - 7) with 0 in E by lia. cbn [skipn] in E.
        rewrite START_MARK_chars, END_MARK_chars in E.
        remember (j - length a) as d eqn:Hd.
        do 7 (destruct d as [|d]; [simpl in E; discriminate|]).
        lia.
      * (* ... or in [b], before its first end marker *)
        rewrite skipn_all2 in E by (rewrite H7; lia). cbn [app] in E.
        rewrite Hbefore in E by lia. discriminate.
Qed.

(** A packet is read from its first start marker on. *)
Lemma process_first_start (st : Rx.state) (pre c : text) :
  find START_MARK (pre ++ START_MARK ++ c) = Some (length pre) ->
  Rx.process st (pre ++ START_MARK ++ c)
  = if contains END_MARK c
    then (Rx.initial, Some (firstn (index_of END_MARK c) c))
    else (Rx.mkState c true, None).
Proof.
  intros Hf. destruct (contains_index _ _ _ Hf) as [Hc Hi].
  unfold Rx.process. rewrite Hc, Hi. unfold slice_from, slice_to.
  rewrite skipn_app.
  rewrite (skipn_all2 pre) by lia.
  replace (length pre + length START_MARK - length pre)
    with (length START_MARK) by lia.
  rewrite skipn_app, Nat.sub_diag, skipn_all, skipn_O, !app_nil_l.
  now destruct (contains END_MARK c).
Qed.

(** C10 (as amended).  Only the first start marker of a packet resets
    the receiver; what follows it is read as plain content, later start
    markers included.  With no end marker in that content it becomes
    the buffer as it stands (a single packet ["<START>A<START>B"]
    leaves the buffer holding ["A<START>B"]); with the first end marker
    after the second start marker, that marker is relayed as part of
    the message; with an end marker before it, the second start marker
    is dropped with everything else after that end marker. *)
Theorem later_start_marker_is_content :
  (forall (st : Rx.state) (pre a b : text),
      find START_MARK (pre ++ START_MARK ++ a ++ START_MARK ++ b)
      = Some (length pre) ->
      (contains END_MARK (a ++ START_MARK ++ b) = false ->
       Rx.process st (pre ++ START_MARK ++ a ++ START_MARK ++ b)
       = (Rx.mkState (a ++ START_MARK ++ b) true, None))
      /\
      (forall e,
          contains END_MARK a = false -> find END_MARK b = Some e ->
          Rx.process st (pre ++ START_MARK ++ a ++ START_MARK ++ b)
          = (Rx.initial, Some (a ++ START_MARK ++ slice_to e b)))
      /\
      (forall e,
          find END_MARK a = Some e ->
          Rx.process st (pre ++ START_MARK ++ a ++ START_MARK ++ b)
          = (Rx.initial, Some (slice_to e a))))
  /\
  Rx.step Rx.PACKET_SIZE Rx.initial (Rx.datagram "<START>A<START>B")
  = (Rx.mkState (lit "A<START>B") true, None).
Proof.
  split; [|vm_compute; reflexivity].
  intros st pre a b Hf. rewrite (process_first_start _ _ _ Hf).
  split; [|split].
  - now intros ->.
  - intros e Ha Hb.
    destruct (contains_index _ _ _ (find_end_after_start _ _ _ Ha Hb))
      as [-> ->].
    unfold slice_to. f_equal. f_equal.
    rewrite firstn_app, firstn_all2 by lia. f_equal.
    rewrite firstn_app, firstn_all2 by lia. f_equal. f_equal. lia.
  - intros e Ha.
    destruct (contains_index _ _ _ (find_app_l _ _ (START_MARK ++ b) _ Ha))
      as [-> ->].
    destruct (find_some_inv _ _ _ Ha) as [Hat _].
    apply startswith_length in Hat. rewrite length_skipn in Hat.
    assert (H5 : length END_MARK = 5) by reflexivity.
    unfold slice_to. f_equal. f_equal.
    rewrite firstn_app. replace (e - length a) with 0 by lia.
    cbn [firstn]. now rewrite app_nil_r.
Qed.

Lemma later_start_marker_is_content_witness :
  Rx.process (Rx.mkState (lit "old") true) (lit "xy<START>A<START>B")
  = (Rx.mkState (lit "A<START>B") true, None)
  /\
  Rx.process (Rx.mkState (lit "old") true) (lit "xy<START>A<START>B<END>C")
  = (Rx.initial, Some (lit "A<START>B"))
  /\
  Rx.process (Rx.mkState (lit "old") true) (lit "xy<START>A<END><START>B")
  = (Rx.initial, Some (lit "A")).
Proof.
  split; [|split].
  - apply (proj1 later_start_marker_is_content
                 (Rx.mkState (lit "old") true) (lit "xy") (lit "A") (lit "B"));
      reflexivity.
  - apply (proj1 (proj2 (proj1 later_start_marker_is_content
                   (Rx.mkState (lit "old") true)
                   (lit "xy") (lit "A") (lit "B<END>C") eq_refl)) 1);
      reflexivity.
  - apply (proj2 (proj2 (proj1 later_start_marker_is_content
                   (Rx.mkState (lit "old") true)
                   (lit "xy") (lit "A<END>") (lit "B") eq_refl)) 1);
      reflexivity.
Defined.

(** C10 (as stated) fails: a second start marker that comes after an
    end marker in the same packet is neither appended nor relayed; the
    packet ["<START>A<END><START>B"] relays ["A"] and leaves the
    receiver idle with an empty buffer. *)
Lemma later_start_marker_counterexample :
  Rx.step Rx.PACKET_SIZE Rx.initial (Rx.datagram "<START>A<END><START>B")
  = (Rx.initial, Some (lit "A"))
  /\ contains START_MARK (lit "A") = false.
Proof. split; vm_compute; reflexivity. Qed.

(** * The command parser and dispatcher *)

Lemma Qltb_true (a b : Q) : Qltb a b = true <-> (a < b)%Q.
Proof.
  unfold Qltb. rewrite negb_true_iff. split; intros H.
  - apply Qnot_le_lt. intros Hle. apply Qle_bool_iff in Hle. congruence.
  - destruct (Qle_bool b a) eqn:E; [|reflexivity].
    apply Qle_bool_iff in E. exfalso. now apply (Qlt_not_le a b).
Qed.

Lemma Qltb_false (a b : Q) : Qltb a b = false <-> (b <= a)%Q.
Proof.
  unfold Qltb. rewrite negb_false_iff. apply Qle_bool_iff.
Qed.

(** [clamp] lands in the closed range it is given. *)
Lemma clamp_in_range (v lo hi : Q) :
  (lo <= hi)%Q -> (lo <= clamp v lo hi)%Q /\ (clamp v lo hi <= hi)%Q.
Proof.
  intros Hr. unfold clamp, py_max, py_min.
  destruct (Qltb hi v) eqn:E1.
  - destruct (Qltb lo hi) eqn:E2.
    + split; [exact Hr|apply Qle_refl].
    + split; [apply Qle_refl|exact Hr].
  - apply Qltb_false in E1.
    destruct (Qltb lo v) eqn:E2.
    + apply Qltb_true in E2. split; [now apply Qlt_le_weak|exact E1].
    + split; [apply Qle_refl|exact Hr].
Qed.

(** C3 fails on the code.  The stop words are compared with [in], which
    is exact: upper-case or mixed-case spellings fall through every
    pattern and are answered with the parse error, whereas the sibling
    rules, matched with [re.I], accept any case. *)
Theorem stop_words_are_case_sensitive (cfg : config) (ready : readiness) (to : addr) :
  _handle_command cfg ready (lit "stop") to
  = [Publish 0 0; Reply to (Plain (lit "ok: stopped"))]
  /\ _handle_command cfg ready (lit "STOP") to = [Reply to PARSE_ERROR]
  /\ _handle_command cfg ready (lit "Stop") to = [Reply to PARSE_ERROR]
  /\ _handle_command cfg ready (lit "E-STOP") to = [Reply to PARSE_ERROR]
  /\ _handle_command cfg ready (lit "EStop") to = [Reply to PARSE_ERROR]
  /\ _udp_step cfg ready (Rx.datagram "<START>STOP<END>") to
     = [Reply to PARSE_ERROR]
  /\ _handle_command cfg ready (lit "VEL 0 0") to
     = [Publish (0 # 1) (0 # 1); Reply to (OkVel (0 # 1) (0 # 1))].
Proof. repeat split; vm_compute; reflexivity. Qed.

(** C9.  Life cycle of one submitted goal, for any interleaving of the
    notifications the action client may deliver.  Until the submission
    is acknowledged nothing is replied.  A rejected or absent goal
    handle is answered by the single rejection reply and by nothing
    afterwards.  An accepted one is answered by the acceptance reply,
    followed by the completion reply exactly when a completion
    notification arrives later.  End to end:
    [rotate counterclockwise 45] sends a goal whose acceptance and
    completion are answered [ok: rotate goal accepted] and then
    [ok: rotate done]. *)
Theorem goal_replies_follow_lifecycle
        (a : action) (to : addr) (k : nat)
        (h : option goal_handle) (later : list notification) :
  lifecycle (GoalSent a to) (repeat Completed k) = []
  /\
  (lifecycle (GoalSent a to) (repeat Completed k ++ Acknowledged h :: later)
   = if is_accepted h
     then Reply to (accepted_text a)
          :: (if existsb is_completed later then [Reply to (done_text a)] else [])
     else [Reply to (rejected_text a)])
  /\
  (_handle_command default_config all_ready
                   (lit "rotate counterclockwise 45") peer
   = [SendGoal (RotateGoal (Radians (45 # 1)) (8 # 10)) peer]
   /\
   lifecycle
     (registered_on (SendGoal (RotateGoal (Radians (45 # 1)) (8 # 10)) peer))
     [Acknowledged (Some (mkHandle true)); Completed]
   = [Reply peer (Plain (lit "ok: rotate goal accepted"));
      Reply peer (Plain (lit "ok: rotate done"))]).
Proof.
  assert (Hnone : forall ns, lifecycle NoCallback ns = []).
  { induction ns as [|n ns IH]; [reflexivity|]. simpl. exact IH. }
  assert (Hres : forall ns,
             lifecycle (GoalResult a to) ns
             = if existsb is_completed ns then [Reply to (done_text a)] else []).
  { induction ns as [|n ns IH]; [reflexivity|].
    destruct n as [h'|]; simpl.
    - exact IH.
    - rewrite Hnone. now destruct a. }
  split; [|split; [|split; vm_compute; reflexivity]].
  - induction k as [|k IH]; [reflexivity|]. simpl. exact IH.
  - induction k as [|k IH]; [|simpl; exact IH].
    simpl repeat. simpl app.
    unfold lifecycle; fold lifecycle. unfold deliver, _goal_sent.
    destruct h as [[acc]|]; simpl is_accepted.
    + destruct acc; simpl negb; cbv iota.
      * rewrite Hres. now destruct a.
      * rewrite Hnone. now destruct a.
    + rewrite Hnone. now destruct a.
Qed.

(** ** How the matcher walks a pattern *)

Import Re.

Lemma re_match_in (r : regex) (t : text) (m : match_obj) :
  re_match r t = Some m ->
  exists st, In st (run r (mkM 0 t [])) /\ groups st = m.
Proof.
  unfold re_match. destruct (run r (mkM 0 t [])) as [|st l]; [discriminate|].
  intros [= <-]. exists st. split; [now left|reflexivity].
Qed.

Lemma run_cat_cons (r : regex) (rs : list regex) (st : mstate) :
  run (cat (r :: rs)) st = flat_map (run (cat rs)) (run r st).
Proof. reflexivity. Qed.

Lemma in_run_cat_cons (r : regex) (rs : list regex) (st st' : mstate) :
  In st' (run (cat (r :: rs)) st) ->
  exists mid, In mid (run r st) /\ In st' (run (cat rs) mid).
Proof. rewrite run_cat_cons, in_flat_map. auto. Qed.

Lemma in_star_loop (body : mstate -> list mstate) (P : mstate -> mstate -> Prop) :
  (forall st, P st st) ->
  (forall a b c, P a b -> P b c -> P a c) ->
  (forall st st', In st' (body st) -> P st st') ->
  forall fuel st st', In st' (star_loop body fuel st) -> P st st'.
Proof.
  intros Hrefl Htrans Hbody.
  induction fuel as [|fuel IH]; intros st st' Hin; simpl in Hin.
  - destruct Hin as [<-|[]]. apply Hrefl.
  - apply in_app_or in Hin as [Hin|[<-|[]]]; [|apply Hrefl].
    apply in_flat_map in Hin as [mid [Hmid Hin]].
    destruct (length (rest mid) <? length (rest st)); [|destruct Hin].
    apply (Htrans _ mid); [now apply Hbody|now apply IH].
Qed.

(** A pattern without group [n] leaves what group [n] holds alone. *)
Lemma run_keeps_group (n : nat) (r : regex) :
  has_group n r = false ->
  forall st st', In st' (run r st) ->
                 group n (groups st') = group n (groups st).
Proof.
  induction r as [|p|a IHa b IHb|a IHa b IHb|a IHa|k a IHa| |];
    intros Hg st st' Hin; simpl in Hg, Hin.
  - now destruct Hin as [<-|[]].
  - destruct (rest st) as [|c t]; [destruct Hin|].
    destruct (p c); [|destruct Hin]. now destruct Hin as [<-|[]].
  - apply orb_false_iff in Hg as [Ha Hb].
    apply in_flat_map in Hin as [mid [Hmid Hin]].
    rewrite (IHb Hb _ _ Hin). now apply IHa.
  - apply orb_false_iff in Hg as [Ha Hb].
    apply in_app_or in Hin as [Hin|Hin]; [now apply IHa|now apply IHb].
  - revert Hin.
    apply (in_star_loop (run a)
             (fun s s' => group n (groups s') = group n (groups s))).
    + reflexivity.
    + intros x y z Hxy Hyz. now rewrite Hyz.
    + intros s s'. now apply IHa.
  - apply orb_false_iff in Hg as [Hk Ha].
    apply in_map_iff in Hin as [mid [<- Hmid]].
    simpl. rewrite Hk. now apply IHa.
  - destruct (pos st =? 0); [|destruct Hin]. now destruct Hin as [<-|[]].
  - destruct (rest st) as [|c [|d t]]; try destruct Hin as [<-|[]];
      try reflexivity; try contradiction.
    destruct (c =? 10)%N; [|destruct Hin]. now destruct Hin as [<-|[]].
Qed.

(** What a capturing group records. *)
Lemma run_group_captures (k : nat) (a : regex) (st st' : mstate) :
  In st' (run (Group k a) st) ->
  exists inner,
    In inner (run a st) /\
    group k (groups st')
    = Some (firstn (length (rest st) - length (rest inner)) (rest st)).
Proof.
  simpl. intros Hin. apply in_map_iff in Hin as [inner [<- Hin]].
  exists inner. split; [exact Hin|]. simpl. now rewrite Nat.eqb_refl.
Qed.

(** A literal word under [re.IGNORECASE] consumes a spelling of it. *)
Lemma run_word (l : text) :
  forall st st',
    In st' (run (cat (List.map chr_i l)) st) ->
    exists t, rest st = t ++ rest st' /\ lower t = lower l.
Proof.
  induction l as [|x l IH]; intros st st' Hin.
  - destruct Hin as [<-|[]]. now exists [].
  - change (List.map chr_i (x :: l)) with (chr_i x :: List.map chr_i l) in Hin.
    apply in_run_cat_cons in Hin as [mid [Hmid Hin]].
    simpl in Hmid. destruct (rest st) as [|c r] eqn:Hr; [destruct Hmid|].
    destruct (lower_char c =? lower_char x)%N eqn:Hc; [|destruct Hmid].
    destruct Hmid as [<-|[]].
    destruct (IH _ _ Hin) as [t [Ht Hl]]. simpl in Ht.
    exists (c :: t). split; [now rewrite Ht|].
    simpl. apply N.eqb_eq in Hc. now rewrite Hc, Hl.
Qed.

Lemma run_word_mismatch (x : N) (l : text) (p : nat) (c : N) (r : text)
      (g : list (nat * text)) :
  (lower_char c =? lower_char x)%N = false ->
  run (cat (List.map chr_i (x :: l))) (mkM p (c :: r) g) = [].
Proof.
  intros H.
  change (List.map chr_i (x :: l)) with (chr_i x :: List.map chr_i l).
  rewrite run_cat_cons. simpl. now rewrite H.
Qed.

Lemma run_Alt (a b : regex) (st : mstate) :
  run (Alt a b) st = run a st ++ run b st.
Proof. reflexivity. Qed.

Lemma run_word_i (s : String.string) (st st' : mstate) :
  In st' (run (word_i s) st) ->
  exists t, rest st = t ++ rest st' /\ lower t = lower (lit s).
Proof. apply run_word. Qed.

Lemma firstn_consumed (t r : text) :
  firstn (length (t ++ r) - length r) (t ++ r) = t.
Proof.
  rewrite length_app, Nat.add_sub, firstn_app, Nat.sub_diag, firstn_all.
  simpl. now rewrite app_nil_r.
Qed.

(** ** The grammar rules *)

Lemma lower_cons_inv (t : text) (x : N) (l : text) :
  lower t = x :: l -> exists c t', t = c :: t' /\ lower_char c = x.
Proof.
  destruct t as [|c t']; simpl; [discriminate|].
  intros [= Hc _]. now exists c, t'.
Qed.

(** A text that begins with a letter other than s and e is no stop word. *)
Lemma not_stop_word (c : N) (r : text) :
  lower_char c <> 115%N -> lower_char c <> 101%N ->
  existsb (text_eqb (c :: r)) STOP_WORDS = false.
Proof.
  intros Hs He. unfold STOP_WORDS. simpl.
  destruct (c =? 115)%N eqn:E1;
    [apply N.eqb_eq in E1; subst c; now elim Hs|].
  destruct (c =? 101)%N eqn:E2;
    [apply N.eqb_eq in E2; subst c; now elim He|].
  reflexivity.
Qed.

Lemma vel_needs_v (c : N) (r : text) :
  lower_char c <> 118%N -> re_match VEL_RE (c :: r) = None.
Proof.
  intros Hv. unfold re_match, VEL_RE.
  rewrite run_cat_cons.
  change (run Bol (mkM 0 (c :: r) [])) with [mkM 0 (c :: r) []].
  cbn [flat_map]. rewrite run_cat_cons.
  change (run (Alt (word_i "vel") (word_i "velocity")) (mkM 0 (c :: r) []))
    with (run (cat (List.map chr_i (118%N :: lit "el"))) (mkM 0 (c :: r) [])
          ++ run (cat (List.map chr_i (118%N :: lit "elocity")))
                 (mkM 0 (c :: r) [])).
  rewrite !run_word_mismatch; [reflexivity| |];
    apply N.eqb_neq; exact Hv.
Qed.

(** What a match of the velocity rule implies about the text. *)
Lemma vel_match_shape (txt : text) (m : match_obj) :
  re_match VEL_RE txt = Some m ->
  exists c r, txt = c :: r /\ lower_char c = 118%N.
Proof.
  intros H. apply re_match_in in H as [fin [Hin _]]. unfold VEL_RE in Hin.
  apply in_run_cat_cons in Hin as [s1 [H1 Hin]].
  destruct H1 as [<-|[]].
  apply in_run_cat_cons in Hin as [s2 [H2 _]].
  rewrite run_Alt in H2. apply in_app_or in H2.
  destruct H2 as [H2|H2]; apply run_word_i in H2 as [t [Ht Hl]];
    [change (lower (lit "vel")) with (118%N :: lit "el") in Hl
    |change (lower (lit "velocity")) with (118%N :: lit "elocity") in Hl];
    apply lower_cons_inv in Hl as [c [t' [-> Hc]]];
    simpl in Ht; exists c, (t' ++ rest s2); split; assumption.
Qed.

(** What a match of the drive rule implies: the text begins with a
    spelling of [drive], and group 1 is a spelling of one of the two
    direction words. *)
Lemma drive_match_shape (txt : text) (m : match_obj) :
  re_match DRIVE_RE txt = Some m ->
  (exists c r, txt = c :: r /\ lower_char c = 100%N)
  /\ (lower (group_str 1 m) = lit "forward"
      \/ lower (group_str 1 m) = lit "backward").
Proof.
  intros H. apply re_match_in in H as [fin [Hin <-]]. unfold DRIVE_RE in Hin.
  apply in_run_cat_cons in Hin as [s1 [H1 Hin]].
  destruct H1 as [<-|[]].
  apply in_run_cat_cons in Hin as [s2 [H2 Hin]].
  apply in_run_cat_cons in Hin as [s3 [_ Hin]].
  apply in_run_cat_cons in Hin as [s4 [H4 Hin]].
  split.
  - apply run_word_i in H2 as [t [Ht Hl]].
    change (lower (lit "drive")) with (100%N :: lit "rive") in Hl.
    apply lower_cons_inv in Hl as [c [t' [-> Hc]]].
    simpl in Ht. now exists c, (t' ++ rest s2).
  - apply run_group_captures in H4 as [inner [Hinner Hcap]].
    apply (run_keeps_group 1) in Hin; [|reflexivity].
    unfold group_str. rewrite Hin, Hcap.
    rewrite run_Alt in Hinner. apply in_app_or in Hinner.
    destruct Hinner as [Hw|Hw]; apply run_word_i in Hw as [t [Ht Hl]];
      rewrite Ht, firstn_consumed, Hl; [left|right]; reflexivity.
Qed.

(** C5 (as amended).  For every text the drive rule parses, the goal
    distance is the magnitude of the number with the sign the direction
    word gives it: [+|num|] for [forward], [-|num|] for [backward]; a
    sign written on the number itself is dropped.  (The speed is the
    clamped [speed] argument, or the clamped default.) *)
Theorem drive_direction_sets_sign
        (cfg : config) (ready : readiness) (txt : text) (to : addr)
        (m : match_obj) :
  isascii txt = true ->
  re_match DRIVE_RE txt = Some m ->
  let num := float_of_token (group_str 2 m) in
  let speed :=
    clamp (match group 3 m with
           | Some s => float_of_token s
           | None => default_drive_speed cfg
           end) (5 # 100) (5 # 10) in
  (lower (group_str 1 m) = lit "forward" /\
   _handle_command cfg ready txt to
   = _send_drive_distance cfg ready (Qabs num) speed to)
  \/
  (lower (group_str 1 m) = lit "backward" /\
   _handle_command cfg ready txt to
   = _send_drive_distance cfg ready (- Qabs num) speed to).
Proof.
  intros _ Hm num speed.
  destruct (drive_match_shape _ _ Hm) as [[c [r [-> Hc]]] Hdir].
  assert (Hcmd : _handle_command cfg ready (c :: r) to
                 = _send_drive_distance cfg ready
                     (if text_eqb (lower (group_str 1 m)) (lit "forward")
                      then Qabs num else - Qabs num) speed to).
  { unfold _handle_command.
    rewrite not_stop_word by (rewrite Hc; discriminate).
    rewrite vel_needs_v by (rewrite Hc; discriminate).
    rewrite Hm. reflexivity. }
  destruct Hdir as [Hd|Hd]; [left|right]; (split; [exact Hd|]);
    rewrite Hcmd, Hd; reflexivity.
Qed.

Lemma drive_direction_sets_sign_witness :
  (lower (lit "Backward") = lit "forward" /\
   _handle_command default_config all_ready (lit "drive Backward 1.5") peer
   = _send_drive_distance default_config all_ready
       (Qabs (float_of_token (lit "1.5")))
       (clamp (default_drive_speed default_config) (5 # 100) (5 # 10)) peer)
  \/
  (lower (lit "Backward") = lit "backward" /\
   _handle_command default_config all_ready (lit "drive Backward 1.5") peer
   = _send_drive_distance default_config all_ready
       (- Qabs (float_of_token (lit "1.5")))
       (clamp (default_drive_speed default_config) (5 # 100) (5 # 10)) peer).
Proof.
  apply (drive_direction_sets_sign default_config all_ready
           (lit "drive Backward 1.5") peer
           [(2, lit "1.5"); (1, lit "Backward")]); reflexivity.
Defined.

(** C5 (as stated) fails: [drive forward -2] is parsed, the number is
    -2, and the goal distance is +2, not the +num = -2 of the claim. *)
Lemma drive_sign_counterexample :
  exists m,
    re_match DRIVE_RE (lit "drive forward -2") = Some m /\
    lower (group_str 1 m) = lit "forward" /\
    float_of_token (group_str 2 m) = (-2 # 1) /\
    _handle_command default_config all_ready (lit "drive forward -2") peer
    = [SendGoal (DriveGoal (2 # 1) (25 # 100)) peer] /\
    Qeq_bool (2 # 1) (float_of_token (group_str 2 m)) = false.
Proof.
  eexists. split; [vm_compute; reflexivity|].
  repeat split; vm_compute; reflexivity.
Qed.

(** C7.  Velocity arguments outside the declared ranges are clamped,
    not rejected: [vel 10 0] publishes vx = 0.6 and [vel -10 0]
    publishes vx = -0.6 (and [vel 0 5] publishes wz = 2.0); whatever
    text the velocity rule parses, one velocity is published, with
    -0.6 <= vx <= 0.6 and -2.0 <= wz <= 2.0, and reported back. *)
Theorem velocity_is_clamped (cfg : config) (ready : readiness) (to : addr) :
  _handle_command cfg ready (lit "vel 10 0") to
  = [Publish (6 # 10) (0 # 1); Reply to (OkVel (6 # 10) (0 # 1))]
  /\
  _handle_command cfg ready (lit "vel -10 0") to
  = [Publish (-6 # 10) (0 # 1); Reply to (OkVel (-6 # 10) (0 # 1))]
  /\
  _handle_command cfg ready (lit "vel 0 5") to
  = [Publish (0 # 1) (2 # 1); Reply to (OkVel (0 # 1) (2 # 1))]
  /\
  forall (txt : text) (m : match_obj),
    isascii txt = true ->
    re_match VEL_RE txt = Some m ->
    exists vx wz,
      _handle_command cfg ready txt to
      = [Publish vx wz; Reply to (OkVel vx wz)]
      /\ vx = clamp (float_of_token (group_str 1 m)) (- (6 # 10)) (6 # 10)
      /\ wz = clamp (float_of_token (group_str 2 m)) (- (2 # 1)) (2 # 1)
      /\ (- (6 # 10) <= vx)%Q /\ (vx <= 6 # 10)%Q
      /\ (- (2 # 1) <= wz)%Q /\ (wz <= 2 # 1)%Q.
Proof.
  split; [vm_compute; reflexivity|].
  split; [vm_compute; reflexivity|].
  split; [vm_compute; reflexivity|].
  intros txt m _ Hm.
  destruct (vel_match_shape _ _ Hm) as [c [r [-> Hc]]].
  eexists; eexists. split; [|split; [reflexivity|split; [reflexivity|]]].
  - unfold _handle_command.
    rewrite not_stop_word by (rewrite Hc; discriminate).
    rewrite Hm. reflexivity.
  - destruct (clamp_in_range (float_of_token (group_str 1 m))
                (- (6 # 10)) (6 # 10)) as [H1 H2]; [discriminate|].
    destruct (clamp_in_range (float_of_token (group_str 2 m))
                (- (2 # 1)) (2 # 1)) as [H3 H4]; [discriminate|].
    repeat split; assumption.
Qed.

Lemma velocity_is_clamped_witness :
  exists vx wz,
    _handle_command default_config all_ready (lit "Velocity 0.7 -3.25") peer
    = [Publish vx wz; Reply peer (OkVel vx wz)]
    /\ vx = clamp (float_of_token (lit "0.7")) (- (6 # 10)) (6 # 10)
    /\ wz = clamp (float_of_token (lit "-3.25")) (- (2 # 1)) (2 # 1)
    /\ (- (6 # 10) <= vx)%Q /\ (vx <= 6 # 10)%Q
    /\ (- (2 # 1) <= wz)%Q /\ (wz <= 2 # 1)%Q.
Proof.
  apply (proj2 (proj2 (proj2
           (velocity_is_clamped default_config all_ready peer)))
           (lit "Velocity 0.7 -3.25")
           [(2, lit "-3.25"); (1, lit "0.7")]); reflexivity.
Defined.

(** C8.  A text that is no stop word and that none of the three
    patterns matches is answered with
    [error: could not parse command] followed by the help text, and
    with nothing else: no velocity is published and no goal is sent. *)
Theorem unparseable_command_gets_help
        (cfg : config) (ready : readiness) (txt : text) (to : addr) :
  isascii txt = true ->
  existsb (text_eqb txt) STOP_WORDS = false ->
  re_match VEL_RE txt = None ->
  re_match DRIVE_RE txt = None ->
  re_match ROTATE_RE txt = None ->
  _handle_command cfg ready txt to
  = [Reply to (Plain (lit "error: could not parse command
" ++ COMMAND_HELP))]
  /\ forall e, In e (_handle_command cfg ready txt to) ->
               exists msg, e = Reply to msg.
Proof.
  intros _ Hs Hv Hd Hr.
  assert (H : _handle_command cfg ready txt to = [Reply to PARSE_ERROR]).
  { unfold _handle_command. now rewrite Hs, Hv, Hd, Hr. }
  split; [exact H|].
  rewrite H. intros e [<-|[]]. now exists PARSE_ERROR.
Qed.

Lemma unparseable_command_gets_help_witness :
  _handle_command default_config all_ready (lit "dance now") peer
  = [Reply peer (Plain (lit "error: could not parse command
" ++ COMMAND_HELP))]
  /\ forall e,
      In e (_handle_command default_config all_ready (lit "dance now") peer) ->
      exists msg, e = Reply peer msg.
Proof.
  apply unparseable_command_gets_help; reflexivity.
Defined.

(** * The sanitizer *)

Lemma nonspace_head_lstrip (t : text) : nonspace_head (lstrip t) = true.
Proof.
  induction t as [|c t IH]; simpl; [reflexivity|].
  destruct (isspace c) eqn:E; [exact IH|]. simpl. now rewrite E.
Qed.

Lemma lstrip_suffix (t : text) : exists s, t = s ++ lstrip t.
Proof.
  induction t as [|c t [s IH]]; simpl; [now exists []|].
  destruct (isspace c).
  - exists (c :: s). simpl. now rewrite <- IH.
  - now exists [].
Qed.

Lemma rstrip_prefix (t : text) : exists s, t = rstrip t ++ s.
Proof.
  unfold rstrip. destruct (lstrip_suffix (rev t)) as [s Hs].
  exists (rev s). rewrite <- rev_app_distr, <- Hs. symmetry. apply rev_involutive.
Qed.

Lemma nonspace_head_app_l (a b : text) :
  nonspace_head (a ++ b) = true -> nonspace_head a = true.
Proof. now destruct a. Qed.

Lemma nonspace_head_strip (t : text) : nonspace_head (strip t) = true.
Proof.
  unfold strip. destruct (rstrip_prefix (lstrip t)) as [s Hs].
  apply (nonspace_head_app_l _ s). rewrite <- Hs. apply nonspace_head_lstrip.
Qed.

Lemma nonspace_last_strip (t : text) : nonspace_head (rev (strip t)) = true.
Proof.
  unfold strip, rstrip. rewrite rev_involutive. apply nonspace_head_lstrip.
Qed.

Lemma strip_strip (t : text) : strip (strip t) = strip t.
Proof.
  apply strip_clean; [apply nonspace_head_strip|apply nonspace_last_strip].
Qed.

Lemma tidy_app_l (a b : text) : tidy (a ++ b) = true -> tidy a = true.
Proof.
  induction a as [|c a IH]; simpl; [reflexivity|].
  destruct (isspace c); [|exact IH].
  intros H. apply andb_true_iff in H as [H Ht].
  apply andb_true_iff in H as [Hc Hh].
  rewrite Hc, (IH Ht), (nonspace_head_app_l _ _ Hh). reflexivity.
Qed.

Lemma tidy_lstrip (t : text) : tidy t = true -> tidy (lstrip t) = true.
Proof.
  induction t as [|c t IH]; simpl; [reflexivity|].
  destruct (isspace c) eqn:E.
  - intros H. apply andb_true_iff in H as [_ Ht]. now apply IH.
  - intros H. simpl. now rewrite E.
Qed.

Lemma tidy_strip (t : text) : tidy t = true -> tidy (strip t) = true.
Proof.
  intros H. unfold strip. apply tidy_lstrip in H.
  destruct (rstrip_prefix (lstrip t)) as [s Hs].
  rewrite Hs in H. now apply tidy_app_l in H.
Qed.

Lemma collapse_tidy (t : text) :
  tidy (collapse_ws false t) = true
  /\ tidy (collapse_ws true t) = true
  /\ nonspace_head (collapse_ws true t) = true.
Proof.
  induction t as [|c t [IH1 [IH2 IH3]]]; simpl; [auto|].
  destruct (isspace c) eqn:E.
  - repeat split; try assumption.
    simpl. now rewrite IH2, IH3.
  - simpl. rewrite E. auto.
Qed.

Lemma collapse_tidy_id (t : text) :
  tidy t = true ->
  collapse_ws false t = t
  /\ (nonspace_head t = true -> collapse_ws true t = t).
Proof.
  induction t as [|c t IH]; simpl; [auto|].
  destruct (isspace c) eqn:E.
  - intros H. apply andb_true_iff in H as [H Ht].
    apply andb_true_iff in H as [Hc Hh].
    apply N.eqb_eq in Hc. destruct (IH Ht) as [_ IH2].
    split; [now rewrite (IH2 Hh), Hc|discriminate].
  - intros Ht. destruct (IH Ht) as [IH1 _]. now rewrite IH1.
Qed.

Lemma collapse_after_run (t : text) :
  collapse_ws true t = collapse_ws false (lstrip t).
Proof.
  induction t as [|c t IH]; simpl; [reflexivity|].
  destruct (isspace c) eqn:E; [exact IH|]. simpl. now rewrite E.
Qed.

Lemma lstrip_length (t : text) : length (lstrip t) <= length t.
Proof.
  induction t as [|c t IH]; simpl; [lia|].
  destruct (isspace c); simpl; lia.
Qed.

Lemma run_ws (st : mstate) :
  run ws st =
  match rest st with
  | c :: t => if isspace c then [mkM (S (pos st)) t (groups st)] else []
  | [] => []
  end.
Proof. reflexivity. Qed.

Lemma run_ws_run (st : mstate) :
  run WS_RUN st
  = flat_map (fun s => star_loop (run ws) (length (rest s)) s) (run ws st).
Proof. reflexivity. Qed.

(** The greedy [\s*] first tries the whole run of whitespace. *)
Lemma star_ws_head (fuel : nat) :
  forall st, length (rest st) <= fuel ->
  exists h tl, star_loop (run ws) fuel st = h :: tl
               /\ rest h = lstrip (rest st).
Proof.
  induction fuel as [|fuel IH]; intros st Hl.
  - exists st, []. split; [reflexivity|].
    destruct (rest st); [reflexivity|simpl in Hl; lia].
  - unfold star_loop; fold star_loop. rewrite run_ws.
    destruct (rest st) as [|c t] eqn:Hr.
    + exists st, []. now rewrite Hr.
    + simpl lstrip. destruct (isspace c) eqn:E.
      * cbn [flat_map rest length].
        replace (length t <? S (length t)) with true
          by (symmetry; apply Nat.ltb_lt; lia).
        destruct (IH (mkM (S (pos st)) t (groups st))) as [h [tl [Hh Hrest]]];
          [simpl in *; lia|].
        rewrite Hh. exists h, ((tl ++ []) ++ [st]). split; [reflexivity|].
        exact Hrest.
      * exists st, []. now rewrite Hr.
Qed.

(** [re.sub(r'\s+', ' ', t)] collapses each whitespace run of [t]. *)
Lemma sub_ws_run (fuel : nat) :
  forall (at_pos : nat) (t : text),
    length t < fuel ->
    sub_from fuel WS_RUN (lit " ") at_pos t = collapse_ws false t.
Proof.
  induction fuel as [|fuel IH]; intros at_pos t Hl; [lia|].
  unfold sub_from; fold sub_from.
  rewrite run_ws_run, run_ws.
  destruct t as [|c t]; [reflexivity|].
  cbn [rest]. simpl collapse_ws.
  destruct (isspace c) eqn:E.
  - cbn [flat_map rest pos groups].
    destruct (star_ws_head (length t) (mkM (S at_pos) t []))
      as [h [tl [Hh Hrest]]]; [simpl; lia|].
    cbn [rest] in Hrest. rewrite Hh. cbn [app]. rewrite Hrest.
    pose proof (lstrip_length t) as Hle.
    change (length (c :: t)) with (S (length t)).
    replace (S (length t) - length (lstrip t) =? 0) with false
      by (symmetry; apply Nat.eqb_neq; lia).
    rewrite IH by (simpl in Hl; lia).
    now rewrite collapse_after_run.
  - cbn [flat_map]. rewrite IH by (simpl in Hl; lia). reflexivity.
Qed.

Lemma re_sub_ws_run (t : text) :
  re_sub WS_RUN (lit " ") t = collapse_ws false t.
Proof. unfold re_sub. apply sub_ws_run. lia. Qed.

(** The sanitizer's result is stripped and single-spaced. *)
Lemma strip_wrappers_tidy (x : text) :
  let y := strip_wrappers x in
  strip y = y /\ collapse_ws false y = y.
Proof.
  unfold strip_wrappers. cbv zeta. rewrite re_sub_ws_run. split.
  - apply strip_strip.
  - apply collapse_tidy_id, tidy_strip, collapse_tidy.
Qed.

(** C4 (as amended).  The sanitizer removes one layer of wrapping per
    pass, so it is idempotent on every text whose sanitized form has no
    wrapper left: it is not enclosed in quotes, no start marker opens
    it and no end marker closes it. *)
Theorem strip_wrappers_idempotent_once_unwrapped (x : text) :
  isascii x = true ->
  quoted (strip_wrappers x) = false ->
  re_sub START_RE [] (strip_wrappers x) = strip_wrappers x ->
  re_sub END_RE [] (strip_wrappers x) = strip_wrappers x ->
  strip_wrappers (strip_wrappers x) = strip_wrappers x.
Proof.
  intros _ Hq Hs He.
  destruct (strip_wrappers_tidy x) as [Hstrip Hcol]. cbv zeta in *.
  set (y := strip_wrappers x) in *.
  unfold strip_wrappers at 1. cbv zeta.
  rewrite Hstrip, Hq, Hs, He, re_sub_ws_run, Hcol. exact Hstrip.
Qed.

Lemma strip_wrappers_idempotent_once_unwrapped_witness :
  strip_wrappers (strip_wrappers (lit "  '<START> vel   0.2  -0.3 < end >'  "))
  = strip_wrappers (lit "  '<START> vel   0.2  -0.3 < end >'  ").
Proof.
  apply strip_wrappers_idempotent_once_unwrapped; reflexivity.
Defined.

(** C4 (as stated) fails: quotes inside quotes, or a marker inside a
    marker, take a second pass to go. *)
Lemma strip_wrappers_counterexample :
  strip_wrappers (lit "''stop''") = lit "'stop'"
  /\ strip_wrappers (strip_wrappers (lit "''stop''")) = lit "stop"
  /\ text_eqb (strip_wrappers (strip_wrappers (lit "''stop''")))
              (strip_wrappers (lit "''stop''")) = false
  /\ strip_wrappers (lit "<START><START>stop") = lit "<START>stop"
  /\ strip_wrappers (strip_wrappers (lit "<START><START>stop")) = lit "stop".
Proof. repeat split; vm_compute; reflexivity. Qed.

(** * Further properties of the sender *)

Lemma split_pad_concat (size : nat) :
  0 < size ->
  forall (fuel : nat) (full_bytes : bytes),
    length full_bytes <= fuel ->
    exists k,
      k < size /\
      concat (Tx.split_pad fuel size full_bytes) = full_bytes ++ repeat 32%N k.
Proof.
  intros Hsize. induction fuel as [|fuel IH]; intros bs Hl.
  - destruct bs; [|simpl in Hl; lia]. exists 0. now split.
  - destruct bs as [|b bs]; [exists 0; now split|].
    destruct (Nat.le_gt_cases (length (b :: bs)) size) as [Hlast|Hmore].
    + rewrite split_pad_last by (congruence || assumption).
      exists (size - length (b :: bs)). split; [cbn [length] in *; lia|].
      cbn [concat]. now rewrite app_nil_r.
    + rewrite split_pad_more by exact Hmore.
      destruct (IH (skipn size (b :: bs))) as [k [Hk Hc]];
        [rewrite length_skipn; cbn [length] in *; lia|].
      exists k. split; [exact Hk|].
      cbn [concat]. rewrite Hc, app_assoc, firstn_skipn. reflexivity.
Qed.

Lemma split_pad_count (size : nat) :
  0 < size ->
  forall (fuel : nat) (full_bytes : bytes),
    length full_bytes <= fuel ->
    length (Tx.split_pad fuel size full_bytes)
    = (length full_bytes + size - 1) / size.
Proof.
  intros Hsize. induction fuel as [|fuel IH]; intros bs Hl.
  - destruct bs; [|simpl in Hl; lia]. simpl.
    symmetry. apply Nat.div_small. lia.
  - destruct bs as [|b bs].
    + rewrite split_pad_nil. simpl. symmetry. apply Nat.div_small. lia.
    + destruct (Nat.le_gt_cases (length (b :: bs)) size) as [Hlast|Hmore].
      * rewrite split_pad_last by (congruence || assumption).
        cbn [length] in *.
        replace (S (length bs) + size - 1) with (length bs + 1 * size) by lia.
        rewrite Nat.div_add by lia. rewrite Nat.div_small by lia. reflexivity.
      * rewrite split_pad_more by exact Hmore.
        cbn [length]. rewrite IH by (rewrite length_skipn; cbn [length] in *; lia).
        rewrite length_skipn. cbn [length] in *.
        replace (S (length bs) + size - 1)
          with (S (length bs) - size + size - 1 + 1 * size) by lia.
        rewrite Nat.div_add by lia. lia.
Qed.

(** X1.  Whatever the sender sends for a line is made of packets of
    exactly the packet size which, laid end to end, are the encoded
    wrapped message followed by fewer than one packet of pad spaces. *)
Theorem tx_packets_are_full_size (size : nat) (user_msg : text)
        (pkts : list bytes) :
  Tx.packets size user_msg = Some pkts ->
  exists full_bytes k,
    encode (START_MARK ++ user_msg ++ END_MARK) = Some full_bytes
    /\ Forall (fun p => length p = size) pkts
    /\ k < size
    /\ concat pkts = full_bytes ++ repeat 32%N k.
Proof.
  unfold Tx.packets.
  destruct (encode (START_MARK ++ user_msg ++ END_MARK)) as [bs|];
    [|discriminate].
  destruct (size =? 0) eqn:E; [discriminate|].
  apply Nat.eqb_neq in E. intros [= <-].
  assert (Hsize : 0 < size) by lia.
  destruct (split_pad_concat size Hsize (length bs) bs (le_n _)) as [k [Hk Hc]].
  exists bs, k. repeat split; try assumption.
  now apply split_pad_covers.
Qed.

Lemma tx_packets_are_full_size_witness :
  exists full_bytes k,
    encode (START_MARK ++ lit "hello world" ++ END_MARK) = Some full_bytes
    /\ Forall (fun p => length p = 16)
              [Rx.datagram "<START>hello wor"; Rx.datagram "ld<END>         "]
    /\ k < 16
    /\ concat [Rx.datagram "<START>hello wor"; Rx.datagram "ld<END>         "]
       = full_bytes ++ repeat 32%N k.
Proof.
  apply (tx_packets_are_full_size 16 (lit "hello world")). reflexivity.
Defined.

(** X2.  The number of packets sent for a line (the count the script
    prints) is the length of the encoded wrapped message divided by the
    packet size, rounded up. *)
Theorem tx_packet_count (size : nat) (user_msg : text) (pkts : list bytes) :
  Tx.packets size user_msg = Some pkts ->
  exists full_bytes,
    encode (START_MARK ++ user_msg ++ END_MARK) = Some full_bytes
    /\ length pkts = (length full_bytes + size - 1) / size.
Proof.
  unfold Tx.packets.
  destruct (encode (START_MARK ++ user_msg ++ END_MARK)) as [bs|];
    [|discriminate].
  destruct (size =? 0) eqn:E; [discriminate|].
  apply Nat.eqb_neq in E. intros [= <-].
  exists bs. split; [reflexivity|].
  apply split_pad_count; lia.
Qed.

Lemma tx_packet_count_witness :
  exists full_bytes,
    encode (START_MARK ++ lit "hello world" ++ END_MARK) = Some full_bytes
    /\ length [Rx.datagram "<START>hello wor"; Rx.datagram "ld<END>         "]
       = (length full_bytes + 16 - 1) / 16.
Proof.
  apply (tx_packet_count 16 (lit "hello world")). reflexivity.
Defined.

Lemma text_eqb_eq (a b : text) : text_eqb a b = true <-> a = b.
Proof.
  revert b; induction a as [|x a IH]; intros [|y b]; simpl;
    try (split; [discriminate|discriminate]); [now split|].
  rewrite andb_true_iff, N.eqb_eq, IH. split.
  - now intros [-> ->].
  - now intros [= -> ->].
Qed.

(** X3.  A line that spells [quit], in any mixture of cases, ends the
    sender's loop: nothing is sent for it nor for any line after it, so
    the text [quit] itself can never be transmitted. *)
Theorem tx_session_stops_at_quit (size : nat)
        (before : list text) (q : text) (after : list text) :
  lower q = lit "quit" ->
  tx_session size (before ++ q :: after) = tx_session size before.
Proof.
  intros Hq. induction before as [|l before IH].
  - simpl. now rewrite (proj2 (text_eqb_eq _ _) Hq).
  - cbn [app tx_session].
    destruct (text_eqb (lower l) (lit "quit")); [reflexivity|].
    destruct (Tx.packets size l); [now rewrite IH|reflexivity].
Qed.

Lemma tx_session_stops_at_quit_witness :
  tx_session 16 ([lit "stop"] ++ lit "QuIt" :: [lit "vel 1 0"])
  = tx_session 16 [lit "stop"].
Proof.
  apply tx_session_stops_at_quit. reflexivity.
Defined.

Lemma encode_char_encodable (c : N) :
  encode_char c = None <-> encodable c = false.
Proof.
  unfold encode_char, encodable.
  decide_tests; split; intros ?; (discriminate || reflexivity).
Qed.

Lemma encode_none (t : text) :
  encode t = None <-> forallb encodable t = false.
Proof.
  induction t as [|c t IH]; simpl; [split; discriminate|].
  destruct (encode_char c) as [b|] eqn:Ec.
  - assert (Hc : encodable c = true).
    { destruct (encodable c) eqn:E; [reflexivity|].
      apply encode_char_encodable in E. congruence. }
    rewrite Hc. simpl. rewrite <- IH.
    destruct (encode t); split; intros H; try discriminate; reflexivity.
  - apply encode_char_encodable in Ec. rewrite Ec. simpl.
    split; reflexivity.
Qed.

(** X4.  The sender fails to build packets exactly when the packet size
    is zero ([range] refuses a zero step) or the line holds a code point
    UTF-8 cannot encode (a surrogate); in every other case it sends. *)
Theorem tx_packets_fail_exactly (size : nat) (user_msg : text) :
  Tx.packets size user_msg = None
  <-> (size = 0 \/ forallb encodable user_msg = false).
Proof.
  unfold Tx.packets.
  assert (Hw : forallb encodable (START_MARK ++ user_msg ++ END_MARK)
               = forallb encodable user_msg).
  { rewrite !forallb_app.
    change (forallb encodable START_MARK) with true.
    change (forallb encodable END_MARK) with true.
    now rewrite andb_true_r. }
  destruct (encode (START_MARK ++ user_msg ++ END_MARK)) as [bs|] eqn:E.
  - assert (Hok : forallb encodable user_msg = true).
    { rewrite <- Hw.
      destruct (forallb encodable (START_MARK ++ user_msg ++ END_MARK)) eqn:F;
        [reflexivity|]. apply encode_none in F. congruence. }
    destruct (size =? 0) eqn:Z.
    + apply Nat.eqb_eq in Z. split; [now left|reflexivity].
    + apply Nat.eqb_neq in Z. split; [discriminate|].
      intros [H|H]; congruence.
  - apply encode_none in E. rewrite Hw in E.
    split; [now right|reflexivity].
Qed.

(** * UTF-8 between the sender and the receiver *)

(** X5.  UTF-8 round trip between the two scripts: decoding, as the
    receiver does, the bytes the sender's [encode] produced for a text
    yields that text, also when pad spaces follow. *)
Theorem decode_after_encode (t : text) (bs : bytes) (pad : nat) :
  encode t = Some bs ->
  decode_ignore (bs ++ repeat 32%N pad) = t ++ repeat 32%N pad.
Proof.
  intros H. rewrite (decode_encode_app t bs _ H).
  now rewrite decode_ascii by apply isascii_repeat.
Qed.

Lemma decode_after_encode_witness :
  decode_ignore ([103; 114; 195; 188; 195; 159; 101; 32; 226; 130; 172;
                  32; 240; 159; 164; 150]%N ++ repeat 32%N 3)
  = [103; 114; 252; 223; 101; 32; 8364; 32; 129302]%N ++ repeat 32%N 3.
Proof.
  apply decode_after_encode. reflexivity.
Defined.

(** X6.  Any message, in any script, that holds no end marker and whose
    wrapped UTF-8 encoding fits in one packet makes the round trip: the
    receiver fed the sender's single packet relays exactly the message
    and is idle again. *)
Theorem single_packet_roundtrip (size : nat) (message : text) (bs : bytes) :
  encode (START_MARK ++ message ++ END_MARK) = Some bs ->
  length bs <= size ->
  contains END_MARK message = false ->
  reassembles size message.
Proof.
  intros Henc Hfit Hend.
  set (w := START_MARK ++ message ++ END_MARK) in *.
  assert (Hne : bs <> []).
  { intros ->. pose proof (decode_encode_app w [] [] Henc) as H.
    unfold w in H. rewrite START_MARK_chars in H. simpl in H. discriminate. }
  assert (Hpos : 0 < length bs) by (destruct bs; [congruence|simpl; lia]).
  unfold reassembles, Tx.packets. fold w. rewrite Henc.
  destruct (size =? 0) eqn:E0; [apply Nat.eqb_eq in E0; lia|].
  eexists; split; [reflexivity|].
  destruct (length bs) as [|fuel] eqn:Hlen; [lia|].
  rewrite split_pad_last by (assumption || lia).
  unfold Rx.run, Rx.step, Rx.chunk_of, slice_to.
  rewrite firstn_all2 by (rewrite length_app, repeat_length; lia).
  rewrite (decode_encode_app w bs _ Henc).
  rewrite decode_ascii by apply isascii_repeat.
  rewrite strip_padded.
  - unfold w at 1. rewrite process_start.
    destruct (contains_index _ _ _ (find_end_appended message Hend)) as [-> ->].
    rewrite firstn_app, Nat.sub_diag, firstn_all. simpl.
    now rewrite app_nil_r.
  - reflexivity.
  - unfold w. rewrite !rev_app_distr, END_MARK_chars. reflexivity.
Qed.

Lemma single_packet_roundtrip_witness :
  reassembles Tx.PACKET_SIZE
              ([32; 103; 114; 252; 223; 101; 32; 8364; 32]%N
                 ++ START_MARK ++ [129302; 32]%N).
Proof.
  eapply single_packet_roundtrip;
    [reflexivity | apply Nat.leb_le; reflexivity | reflexivity].
Defined.

(** * Further properties of the receiver *)

Lemma rx_run_app (size : nat) (ds1 ds2 : list bytes) :
  forall st,
    Rx.run size st (ds1 ++ ds2)
    = (fst (Rx.run size (fst (Rx.run size st ds1)) ds2),
       snd (Rx.run size st ds1)
       ++ snd (Rx.run size (fst (Rx.run size st ds1)) ds2)).
Proof.
  induction ds1 as [|d ds1 IH]; intros st.
  - simpl. now destruct (Rx.run size st ds2).
  - cbn [app]. rewrite !rx_run_cons, IH. cbn [fst snd].
    now destruct (snd (Rx.step size st d)).
Qed.

(** X7.  While the receiver is idle, packets that hold no start marker
    are ignored whatever else they hold: nothing is relayed and the
    receiver's state does not change. *)
Theorem rx_idle_ignores_unframed (size : nat) (st : Rx.state)
        (ds : list bytes) :
  Rx.inside_message st = false ->
  Forall (fun d => contains START_MARK (Rx.chunk_of size d) = false) ds ->
  Rx.run size st ds = (st, []).
Proof.
  intros Hidle Hall. induction Hall as [|d ds Hd _ IH]; [reflexivity|].
  rewrite rx_run_cons.
  assert (Hstep : Rx.step size st d = (st, None)).
  { unfold Rx.step, Rx.process. rewrite Hd, Hidle.
    destruct st as [b i]. simpl in *. now subst i. }
  rewrite Hstep. cbn [fst snd]. now rewrite IH.
Qed.

Lemma rx_idle_ignores_unframed_witness :
  Rx.run Rx.PACKET_SIZE Rx.initial
         [Rx.datagram "stop"; Rx.datagram "vel 1 0<END>"; Rx.datagram "<start>x"]
  = (Rx.initial, []).
Proof.
  apply rx_idle_ignores_unframed; [reflexivity|].
  repeat constructor.
Defined.

(** X8.  While the receiver is collecting, packets that hold neither
    marker are appended to the buffer in arrival order, exactly as
    stripped, and nothing is relayed. *)
Theorem rx_collects_in_order (size : nat) (buf : text) (ds : list bytes) :
  Forall (fun d => contains START_MARK (Rx.chunk_of size d) = false
                   /\ contains END_MARK (Rx.chunk_of size d) = false) ds ->
  Rx.run size (Rx.mkState buf true) ds
  = (Rx.mkState (buf ++ concat (List.map (Rx.chunk_of size) ds)) true, []).
Proof.
  intros Hall. revert buf. induction Hall as [|d ds [Hs He] _ IH]; intros buf.
  - simpl. now rewrite app_nil_r.
  - assert (Hstep : Rx.step size (Rx.mkState buf true) d
                     = (Rx.mkState (buf ++ Rx.chunk_of size d) true, None)).
    { unfold Rx.step. now apply process_collect. }
    rewrite rx_run_cons, Hstep. cbn [fst snd].
    rewrite IH. cbn [List.map concat fst snd]. now rewrite app_assoc.
Qed.

Lemma rx_collects_in_order_witness :
  Rx.run Rx.PACKET_SIZE (Rx.mkState (lit "dri") true)
         [Rx.datagram "ve for"; Rx.datagram "ward 1  "; Rx.datagram "<end>"]
  = (Rx.mkState
       (lit "dri" ++ concat (List.map (Rx.chunk_of Rx.PACKET_SIZE)
          [Rx.datagram "ve for"; Rx.datagram "ward 1  "; Rx.datagram "<end>"]))
       true, []).
Proof.
  apply rx_collects_in_order. repeat constructor.
Defined.

(** X9.  Whatever datagrams arrive, the receiver's buffer is empty
    whenever it is idle: a buffer is only ever kept while a message is
    in progress. *)
Theorem rx_idle_buffer_is_empty (size : nat) (ds : list bytes) :
  Rx.inside_message (fst (Rx.run size Rx.initial ds)) = true
  \/ Rx.buffer (fst (Rx.run size Rx.initial ds)) = [].
Proof.
  assert (Hinv : forall ds st,
             (Rx.inside_message st = true \/ Rx.buffer st = []) ->
             Rx.inside_message (fst (Rx.run size st ds)) = true
             \/ Rx.buffer (fst (Rx.run size st ds)) = []).
  { clear ds. induction ds as [|d ds IH]; intros st Hst; [exact Hst|].
    rewrite rx_run_cons. cbn [fst]. apply IH.
    unfold Rx.step, Rx.process.
    destruct (contains START_MARK (Rx.chunk_of size d)).
    - destruct (contains END_MARK _); cbn [fst Rx.inside_message Rx.buffer]; auto.
    - destruct (Rx.inside_message st) eqn:Hi.
      + destruct (contains END_MARK _); cbn [fst Rx.inside_message Rx.buffer]; auto.
      + cbn [fst Rx.inside_message Rx.buffer].
        destruct Hst as [Hst|Hst]; [congruence|now right]. }
  apply Hinv. now right.
Qed.

(** X10.  Messages sent one after the other arrive one after the other:
    if each of them makes the round trip on its own, the receiver fed
    the packets of all of them in sending order relays exactly the
    messages, in order, and ends idle. *)
Theorem rx_relays_messages_in_sequence (size : nat) (messages : list text) :
  Forall (reassembles size) messages ->
  exists batches,
    Forall2 (fun m pkts => Tx.packets size m = Some pkts) messages batches
    /\ Rx.run size Rx.initial (concat batches) = (Rx.initial, messages).
Proof.
  induction 1 as [|m ms [pkts [Hp Hr]] _ [batches [Hb Hrun]]].
  - exists []. split; [constructor|reflexivity].
  - exists (pkts :: batches). split; [now constructor|].
    cbn [concat]. rewrite rx_run_app, Hr. cbn [fst snd]. now rewrite Hrun.
Qed.

Lemma rx_relays_messages_in_sequence_witness :
  exists batches,
    Forall2 (fun m pkts => Tx.packets 16 m = Some pkts)
            [lit "drive forward 1"; lit "stop"] batches
    /\ Rx.run 16 Rx.initial (concat batches)
       = (Rx.initial, [lit "drive forward 1"; lit "stop"]).
Proof.
  apply rx_relays_messages_in_sequence.
  repeat constructor; eexists; (split; [reflexivity|]); reflexivity.
Defined.

(** * Further properties of the bridge *)

(** X11.  [clamp] on a proper range: a value inside the range is
    returned as it is, a value above it becomes the upper bound, a value
    below it the lower bound; the result is always inside the range and
    clamping twice changes nothing more. *)
Theorem clamp_cases (v lo hi : Q) :
  (lo <= hi)%Q ->
  ((lo <= v)%Q -> (v <= hi)%Q -> (clamp v lo hi == v)%Q)
  /\ ((hi < v)%Q -> (clamp v lo hi == hi)%Q)
  /\ ((v < lo)%Q -> (clamp v lo hi == lo)%Q)
  /\ (lo <= clamp v lo hi)%Q /\ (clamp v lo hi <= hi)%Q
  /\ (clamp (clamp v lo hi) lo hi == clamp v lo hi)%Q.
Proof.
  intros Hr.
  assert (Hcase : forall x,
             ((lo <= x)%Q -> (x <= hi)%Q -> (clamp x lo hi == x)%Q)
             /\ ((hi < x)%Q -> (clamp x lo hi == hi)%Q)
             /\ ((x < lo)%Q -> (clamp x lo hi == lo)%Q)).
  { intros x. unfold clamp, py_max, py_min.
    destruct (Qltb hi x) eqn:E1;
      [apply Qltb_true in E1|apply Qltb_false in E1];
      (destruct (Qltb lo _) eqn:E2;
       [apply Qltb_true in E2|apply Qltb_false in E2]);
      repeat split; intros; lra. }
  destruct (Hcase v) as [Hin [Habove Hbelow]].
  destruct (clamp_in_range v lo hi Hr) as [H1 H2].
  repeat split; try assumption.
  now apply (proj1 (Hcase (clamp v lo hi))).
Qed.

Lemma clamp_cases_witness :
  ((- (6 # 10) <= 10 # 1)%Q -> (10 # 1 <= 6 # 10)%Q ->
   (clamp (10 # 1) (- (6 # 10)) (6 # 10) == 10 # 1)%Q)
  /\ ((6 # 10 < 10 # 1)%Q -> (clamp (10 # 1) (- (6 # 10)) (6 # 10) == 6 # 10)%Q)
  /\ ((10 # 1 < - (6 # 10))%Q ->
      (clamp (10 # 1) (- (6 # 10)) (6 # 10) == - (6 # 10))%Q)
  /\ (- (6 # 10) <= clamp (10 # 1) (- (6 # 10)) (6 # 10))%Q
  /\ (clamp (10 # 1) (- (6 # 10)) (6 # 10) <= 6 # 10)%Q
  /\ (clamp (clamp (10 # 1) (- (6 # 10)) (6 # 10)) (- (6 # 10)) (6 # 10)
      == clamp (10 # 1) (- (6 # 10)) (6 # 10))%Q.
Proof.
  apply clamp_cases. discriminate.
Defined.

(** X12.  Whatever ASCII text arrives, a velocity the bridge publishes
    is inside the limits: -0.6 <= vx <= 0.6 and -2.0 <= wz <= 2.0. *)
Theorem published_velocity_within_limits
        (cfg : config) (ready : readiness) (txt : text) (to : addr)
        (vx wz : Q) :
  isascii txt = true ->
  In (Publish vx wz) (_handle_command cfg ready txt to) ->
  (- (6 # 10) <= vx)%Q /\ (vx <= 6 # 10)%Q
  /\ (- (2 # 1) <= wz)%Q /\ (wz <= 2 # 1)%Q.
Proof.
  intros _. unfold _handle_command.
  destruct (existsb (text_eqb txt) STOP_WORDS).
  { intros [H|[H|[]]]; [|discriminate].
    injection H as <- <-. repeat split; discriminate. }
  destruct (re_match VEL_RE txt) as [m|].
  { intros [H|[H|[]]]; [|discriminate].
    injection H as <- <-.
    destruct (clamp_in_range (float_of_token (group_str 1 m))
                (- (6 # 10)) (6 # 10)) as [H1 H2]; [discriminate|].
    destruct (clamp_in_range (float_of_token (group_str 2 m))
                (- (2 # 1)) (2 # 1)) as [H3 H4]; [discriminate|].
    repeat split; assumption. }
  destruct (re_match DRIVE_RE txt) as [m|].
  { unfold _send_drive_distance.
    destruct (ready DriveDistance); intros [H|[]]; discriminate. }
  destruct (re_match ROTATE_RE txt) as [m|].
  { unfold _send_rotate_angle.
    destruct (ready RotateAngle); intros [H|[]]; discriminate. }
  intros [H|[]]; discriminate.
Qed.

Lemma published_velocity_within_limits_witness :
  (- (6 # 10) <= 6 # 10)%Q /\ (6 # 10 <= 6 # 10)%Q
  /\ (- (2 # 1) <= -2 # 1)%Q /\ (-2 # 1 <= 2 # 1)%Q.
Proof.
  apply (published_velocity_within_limits default_config all_ready
           (lit "velocity 99 -99") peer); [reflexivity|].
  vm_compute. left. reflexivity.
Defined.

(** X13.  Whatever ASCII text arrives, a goal the bridge sends is for
    an action server that answered ready, carries the sender's address
    for the later replies, and has its speed inside the limits: 0.05 to
    0.5 for a drive, 0.1 to 1.5 for a rotation. *)
Theorem sent_goal_within_limits
        (cfg : config) (ready : readiness) (txt : text) (to to' : addr)
        (g : goal) :
  isascii txt = true ->
  In (SendGoal g to') (_handle_command cfg ready txt to) ->
  to' = to
  /\ ready (goal_action g) = true
  /\ match g with
     | DriveGoal _ s => (5 # 100 <= s)%Q /\ (s <= 5 # 10)%Q
     | RotateGoal _ s => (1 # 10 <= s)%Q /\ (s <= 15 # 10)%Q
     end.
Proof.
  intros _. unfold _handle_command.
  destruct (existsb (text_eqb txt) STOP_WORDS).
  { intros [H|[H|[]]]; discriminate. }
  destruct (re_match VEL_RE txt) as [m|].
  { intros [H|[H|[]]]; discriminate. }
  destruct (re_match DRIVE_RE txt) as [m|].
  { unfold _send_drive_distance.
    destruct (ready DriveDistance) eqn:R; intros [H|[]]; [|discriminate].
    injection H as <- <-. repeat split; [exact R| |];
      apply clamp_in_range; discriminate. }
  destruct (re_match ROTATE_RE txt) as [m|].
  { unfold _send_rotate_angle.
    destruct (ready RotateAngle) eqn:R; intros [H|[]]; [|discriminate].
    injection H as <- <-. repeat split; [exact R| |];
      apply clamp_in_range; discriminate. }
  intros [H|[]]; discriminate.
Qed.

Lemma sent_goal_within_limits_witness :
  peer = peer
  /\ all_ready (goal_action (DriveGoal (3 # 1) (5 # 10))) = true
  /\ (5 # 100 <= 5 # 10)%Q /\ (5 # 10 <= 5 # 10)%Q.
Proof.
  apply (sent_goal_within_limits default_config all_ready
           (lit "drive forward 3 speed 40") peer peer
           (DriveGoal (3 # 1) (5 # 10))); [reflexivity|].
  vm_compute. left. reflexivity.
Defined.

(** X14.  Every ASCII text is answered in one of three ways: a single
    reply to the sender; one published velocity followed by a single
    reply to the sender; or one goal handed to an action client (whose
    callbacks reply later).  Nothing else is ever done, and never
    nothing. *)
Theorem command_response_shape
        (cfg : config) (ready : readiness) (txt : text) (to : addr) :
  isascii txt = true ->
  (exists msg, _handle_command cfg ready txt to = [Reply to msg])
  \/ (exists vx wz msg,
         _handle_command cfg ready txt to = [Publish vx wz; Reply to msg])
  \/ (exists g, _handle_command cfg ready txt to = [SendGoal g to]).
Proof.
  intros _. unfold _handle_command.
  destruct (existsb (text_eqb txt) STOP_WORDS);
    [right; left; eexists; eexists; eexists; reflexivity|].
  destruct (re_match VEL_RE txt) as [m|];
    [right; left; eexists; eexists; eexists; reflexivity|].
  destruct (re_match DRIVE_RE txt) as [m|].
  { unfold _send_drive_distance. destruct (ready DriveDistance);
      [right; right|left]; eexists; reflexivity. }
  destruct (re_match ROTATE_RE txt) as [m|].
  { unfold _send_rotate_angle. destruct (ready RotateAngle);
      [right; right|left]; eexists; reflexivity. }
  left. eexists. reflexivity.
Qed.

Lemma command_response_shape_witness :
  (exists msg,
      _handle_command default_config all_ready (lit "Vel 1 -3") peer
      = [Reply peer msg])
  \/ (exists vx wz msg,
         _handle_command default_config all_ready (lit "Vel 1 -3") peer
         = [Publish vx wz; Reply peer msg])
  \/ (exists g,
         _handle_command default_config all_ready (lit "Vel 1 -3") peer
         = [SendGoal g peer]).
Proof.
  apply command_response_shape. reflexivity.
Defined.

Lemma drive_needs_d (c : N) (r : text) :
  lower_char c <> 100%N -> re_match DRIVE_RE (c :: r) = None.
Proof.
  intros Hd. unfold re_match, DRIVE_RE.
  rewrite run_cat_cons.
  change (run Bol (mkM 0 (c :: r) [])) with [mkM 0 (c :: r) []].
  cbn [flat_map]. rewrite run_cat_cons.
  change (run (word_i "drive") (mkM 0 (c :: r) []))
    with (run (cat (List.map chr_i (100%N :: lit "rive"))) (mkM 0 (c :: r) [])).
  rewrite run_word_mismatch; [reflexivity|].
  apply N.eqb_neq; exact Hd.
Qed.

(** What a match of the rotate rule implies: the text begins with a
    spelling of [rotate], and group 1 is a spelling of one of the three
    sense words. *)
Lemma rotate_match_shape (txt : text) (m : match_obj) :
  re_match ROTATE_RE txt = Some m ->
  (exists c r, txt = c :: r /\ lower_char c = 114%N)
  /\ (lower (group_str 1 m) = lit "clockwise"
      \/ lower (group_str 1 m) = lit "counterclockwise"
      \/ lower (group_str 1 m) = lit "anticlockwise").
Proof.
  intros H. apply re_match_in in H as [fin [Hin <-]]. unfold ROTATE_RE in Hin.
  apply in_run_cat_cons in Hin as [s1 [H1 Hin]].
  destruct H1 as [<-|[]].
  apply in_run_cat_cons in Hin as [s2 [H2 Hin]].
  apply in_run_cat_cons in Hin as [s3 [_ Hin]].
  apply in_run_cat_cons in Hin as [s4 [H4 Hin]].
  split.
  - apply run_word_i in H2 as [t [Ht Hl]].
    change (lower (lit "rotate")) with (114%N :: lit "otate") in Hl.
    apply lower_cons_inv in Hl as [c [t' [-> Hc]]].
    simpl in Ht. now exists c, (t' ++ rest s2).
  - apply run_group_captures in H4 as [inner [Hinner Hcap]].
    apply (run_keeps_group 1) in Hin; [|reflexivity].
    unfold group_str. rewrite Hin, Hcap.
    rewrite !run_Alt in Hinner. apply in_app_or in Hinner.
    destruct Hinner as [Hw|Hw]; [|apply in_app_or in Hw; destruct Hw as [Hw|Hw]];
      apply run_word_i in Hw as [t [Ht Hl]];
      rewrite Ht, firstn_consumed, Hl; auto.
Qed.

(** X15.  For every ASCII text the rotate rule parses, the goal angle
    is the magnitude of the number, converted to radians, with the sign
    the sense word gives it: negative for [clockwise], positive for
    [counterclockwise] and [anticlockwise]; a sign written on the
    number is dropped.  The speed is the [speed] argument, or the
    configured default, clamped to 0.1 .. 1.5. *)
Theorem rotate_sense_sets_sign
        (cfg : config) (ready : readiness) (txt : text) (to : addr)
        (m : match_obj) :
  isascii txt = true ->
  re_match ROTATE_RE txt = Some m ->
  let deg := float_of_token (group_str 2 m) in
  let speed :=
    clamp (match group 3 m with
           | Some s => float_of_token s
           | None => default_rot_speed cfg
           end) (1 # 10) (15 # 10) in
  (lower (group_str 1 m) = lit "clockwise" /\
   _handle_command cfg ready txt to
   = _send_rotate_angle cfg ready (Radians (- Qabs deg)) speed to)
  \/
  ((lower (group_str 1 m) = lit "counterclockwise"
    \/ lower (group_str 1 m) = lit "anticlockwise") /\
   _handle_command cfg ready txt to
   = _send_rotate_angle cfg ready (Radians (Qabs deg)) speed to).
Proof.
  intros _ Hm deg speed.
  destruct (rotate_match_shape _ _ Hm) as [[c [r [-> Hc]]] Hsense].
  assert (Hcmd : _handle_command cfg ready (c :: r) to
                 = _send_rotate_angle cfg ready
                     (if text_eqb (lower (group_str 1 m)) (lit "clockwise")
                      then angle_neg (Radians (Qabs deg))
                      else Radians (Qabs deg)) speed to).
  { unfold _handle_command.
    rewrite not_stop_word by (rewrite Hc; discriminate).
    rewrite vel_needs_v by (rewrite Hc; discriminate).
    rewrite drive_needs_d by (rewrite Hc; discriminate).
    rewrite Hm. reflexivity. }
  destruct Hsense as [Hs|[Hs|Hs]]; [left|right|right];
    (split; [auto|]); rewrite Hcmd, Hs; reflexivity.
Qed.

Lemma rotate_sense_sets_sign_witness :
  (lower (lit "AntiClockwise") = lit "clockwise" /\
   _handle_command default_config all_ready
                   (lit "Rotate AntiClockwise -90 speed 9") peer
   = _send_rotate_angle default_config all_ready
       (Radians (- Qabs (float_of_token (lit "-90"))))
       (clamp (float_of_token (lit "9")) (1 # 10) (15 # 10)) peer)
  \/
  ((lower (lit "AntiClockwise") = lit "counterclockwise"
    \/ lower (lit "AntiClockwise") = lit "anticlockwise") /\
   _handle_command default_config all_ready
                   (lit "Rotate AntiClockwise -90 speed 9") peer
   = _send_rotate_angle default_config all_ready
       (Radians (Qabs (float_of_token (lit "-90"))))
       (clamp (float_of_token (lit "9")) (1 # 10) (15 # 10)) peer).
Proof.
  apply (rotate_sense_sets_sign default_config all_ready
           (lit "Rotate AntiClockwise -90 speed 9") peer
           [(3, lit "9"); (2, lit "-90"); (1, lit "AntiClockwise")]);
    vm_compute; reflexivity.
Defined.

(** X16.  When the action server a parsed drive or rotate command needs
    does not answer ready, the command is answered by the one reply
    [error: <action name> server not ready], with the action name of
    the node's parameters, and no goal is sent. *)
Theorem goal_refused_when_server_not_ready
        (cfg : config) (ready : readiness) (a : action)
        (txt : text) (to : addr) (m : match_obj) :
  isascii txt = true ->
  re_match (rule_of a) txt = Some m ->
  ready a = false ->
  _handle_command cfg ready txt to
  = [Reply to (Plain (lit "error: " ++ action_name cfg a
                        ++ lit " server not ready"))].
Proof.
  intros _ Hm Hr. destruct a; simpl in Hm.
  - destruct (drive_match_shape _ _ Hm) as [[c [r [-> Hc]]] _].
    unfold _handle_command.
    rewrite not_stop_word by (rewrite Hc; discriminate).
    rewrite vel_needs_v by (rewrite Hc; discriminate).
    rewrite Hm. unfold _send_drive_distance. now rewrite Hr.
  - destruct (rotate_match_shape _ _ Hm) as [[c [r [-> Hc]]] _].
    unfold _handle_command.
    rewrite not_stop_word by (rewrite Hc; discriminate).
    rewrite vel_needs_v by (rewrite Hc; discriminate).
    rewrite drive_needs_d by (rewrite Hc; discriminate).
    rewrite Hm. unfold _send_rotate_angle. now rewrite Hr.
Qed.

Lemma goal_refused_when_server_not_ready_witness :
  _handle_command default_config
                  (fun a => match a with DriveDistance => true
                                       | RotateAngle => false end)
                  (lit "rotate clockwise 90") peer
  = [Reply peer (Plain (lit "error: " ++ action_name default_config RotateAngle
                          ++ lit " server not ready"))].
Proof.
  apply (goal_refused_when_server_not_ready default_config _ RotateAngle
           (lit "rotate clockwise 90") peer
           [(2, lit "90"); (1, lit "clockwise")]);
    vm_compute; reflexivity.
Defined.

(** X17.  The sanitizer's result is in normal form, whatever the ASCII
    input: it has no whitespace at either end, every whitespace
    character in it is a single space with none beside it, and
    stripping it or collapsing its whitespace again changes nothing. *)
Theorem strip_wrappers_normal_form (x : text) :
  isascii x = true ->
  nonspace_head (strip_wrappers x) = true
  /\ nonspace_head (rev (strip_wrappers x)) = true
  /\ tidy (strip_wrappers x) = true
  /\ strip (strip_wrappers x) = strip_wrappers x
  /\ re_sub WS_RUN (lit " ") (strip_wrappers x) = strip_wrappers x.
Proof.
  intros _.
  assert (Ht : tidy (strip_wrappers x) = true).
  { unfold strip_wrappers. cbv zeta. rewrite re_sub_ws_run.
    apply tidy_strip, collapse_tidy. }
  repeat split.
  - unfold strip_wrappers. cbv zeta. apply nonspace_head_strip.
  - unfold strip_wrappers. cbv zeta. apply nonspace_last_strip.
  - exact Ht.
  - unfold strip_wrappers. cbv zeta. apply strip_strip.
  - rewrite re_sub_ws_run. now apply collapse_tidy_id.
Qed.

Lemma strip_wrappers_normal_form_witness :
  nonspace_head (strip_wrappers (lit "  ' < start > Vel   1  2 <END> ' "))
  = true
  /\ nonspace_head
       (rev (strip_wrappers (lit "  ' < start > Vel   1  2 <END> ' ")))
     = true
  /\ tidy (strip_wrappers (lit "  ' < start > Vel   1  2 <END> ' ")) = true
  /\ strip (strip_wrappers (lit "  ' < start > Vel   1  2 <END> ' "))
     = strip_wrappers (lit "  ' < start > Vel   1  2 <END> ' ")
  /\ re_sub WS_RUN (lit " ")
            (strip_wrappers (lit "  ' < start > Vel   1  2 <END> ' "))
     = strip_wrappers (lit "  ' < start > Vel   1  2 <END> ' ").
Proof.
  apply strip_wrappers_normal_form. reflexivity.
Defined.

Lemma command_response_shape_aux
      (cfg : config) (ready : readiness) (txt : text) (to : addr) :
  exists e rest, _handle_command cfg ready txt to = e :: rest.
Proof.
  unfold _handle_command.
  destruct (existsb (text_eqb txt) STOP_WORDS);
    [eexists; eexists; reflexivity|].
  destruct (re_match VEL_RE txt) as [m|]; [eexists; eexists; reflexivity|].
  destruct (re_match DRIVE_RE txt) as [m|].
  { unfold _send_drive_distance. destruct (ready DriveDistance);
      eexists; eexists; reflexivity. }
  destruct (re_match ROTATE_RE txt) as [m|].
  { unfold _send_rotate_angle. destruct (ready RotateAngle);
      eexists; eexists; reflexivity. }
  eexists; eexists; reflexivity.
Qed.

(** X18.  The bridge stays silent exactly for the ASCII datagrams whose
    sanitized text is empty (blank ones, bare markers or quotes); every
    other ASCII datagram is answered, by a reply or by a goal. *)
Theorem bridge_silent_iff_blank
        (cfg : config) (ready : readiness) (data : bytes) (from : addr) :
  isascii data = true ->
  _udp_step cfg ready data from = []
  <-> strip_wrappers (decode_ignore (slice_to 4096 data)) = [].
Proof.
  intros _. unfold _udp_step.
  destruct (strip_wrappers (decode_ignore (slice_to 4096 data)))
    as [|c t] eqn:E; [now split|].
  split; [|discriminate].
  destruct (command_response_shape_aux cfg ready (c :: t) from)
    as [x [rest Hx]].
  rewrite Hx. discriminate.
Qed.

Lemma bridge_silent_iff_blank_witness :
  _udp_step default_config all_ready (Rx.datagram " '<START> <end>' ") peer = []
  <-> strip_wrappers
        (decode_ignore (slice_to 4096 (Rx.datagram " '<START> <end>' "))) = [].
Proof.
  apply bridge_silent_iff_blank. reflexivity.
Defined.

(** ** Letter case in the grammar rules *)

(** Decide each comparison of the goal from the bounds at hand. *)
Ltac settle_tests :=
  repeat match goal with
    | |- context [(?a <? ?b)%N] =>
        first [ replace (a <? b)%N with true
                  by (symmetry; apply N.ltb_lt; lia)
              | replace (a <? b)%N with false
                  by (symmetry; apply N.ltb_ge; lia) ]
    | |- context [(?a <=? ?b)%N] =>
        first [ replace (a <=? b)%N with true
                  by (symmetry; apply N.leb_le; lia)
              | replace (a <=? b)%N with false
                  by (symmetry; apply N.leb_gt; lia) ]
    | |- context [(?a =? ?b)%N] =>
        first [ replace (a =? b)%N with true
                  by (symmetry; apply N.eqb_eq; lia)
              | replace (a =? b)%N with false
                  by (symmetry; apply N.eqb_neq; lia) ]
    end;
  cbn [negb orb andb]; try reflexivity.

Lemma lower_char_cases (c : N) :
  (lower_char c = c /\ ((c < 65)%N \/ (90 < c)%N))
  \/ (lower_char c = (c + 32)%N /\ (65 <= c)%N /\ (c <= 90)%N).
Proof.
  unfold lower_char.
  destruct (N.leb_spec 65 c), (N.leb_spec c 90); cbn [andb]; lia.
Qed.

Lemma lower_char_idem (c : N) : lower_char (lower_char c) = lower_char c.
Proof.
  destruct (lower_char_cases c) as [[E _]|[E [H1 H2]]]; rewrite E; [exact E|].
  unfold lower_char. settle_tests.
Qed.

Lemma isspace_lower (c : N) : isspace (lower_char c) = isspace c.
Proof.
  destruct (lower_char_cases c) as [[-> _]|[-> [H1 H2]]]; [reflexivity|].
  transitivity false; [|symmetry]; unfold isspace; settle_tests.
Qed.

Lemma is_digit_lower (c : N) : is_digit (lower_char c) = is_digit c.
Proof.
  destruct (lower_char_cases c) as [[-> _]|[-> [H1 H2]]]; [reflexivity|].
  transitivity false; [|symmetry]; unfold is_digit; settle_tests.
Qed.

Lemma eqb_lower (k c : N) :
  (k < 65)%N -> (k =? lower_char c)%N = (k =? c)%N.
Proof.
  intros Hk.
  destruct (lower_char_cases c) as [[-> _]|[-> [H1 H2]]]; [reflexivity|].
  settle_tests.
Qed.

Lemma digit_same_letter (c c' : N) :
  lower_char c = lower_char c' -> is_digit c = true -> c = c'.
Proof.
  unfold is_digit. intros H D. apply andb_true_iff in D as [D1 D2].
  apply N.leb_le in D1, D2.
  destruct (lower_char_cases c) as [[Ec _]|[Ec [H1 H2]]];
    destruct (lower_char_cases c') as [[Ec' _]|[Ec' [H1' H2']]]; lia.
Qed.

Lemma blind_transfers (p : N -> bool) (c c' : N) :
  (forall x, p (lower_char x) = p x) ->
  lower_char c = lower_char c' -> p c = p c'.
Proof. intros Hp H. now rewrite <- (Hp c), <- (Hp c'), H. Qed.

Lemma lower_length (a b : text) : lower a = lower b -> length a = length b.
Proof.
  intros H. apply (f_equal (@length _)) in H.
  unfold lower in H. now rewrite !length_map in H.
Qed.

Lemma Forall2_flat_map {A B} (R : A -> A -> Prop) (R' : B -> B -> Prop)
      (f f' : A -> list B) (l l' : list A) :
  Forall2 R l l' ->
  (forall x x', R x x' -> Forall2 R' (f x) (f' x')) ->
  Forall2 R' (flat_map f l) (flat_map f' l').
Proof.
  intros Hl Hf. induction Hl as [|x x' l l' Hx _ IH]; simpl; [constructor|].
  apply Forall2_app; [now apply Hf|exact IH].
Qed.

(** On a case-blind pattern the matcher takes the same steps on two
    subjects that differ in letter case only. *)
Lemma run_same_position (r : regex) :
  case_blind r ->
  forall s s', same_position s s' ->
               Forall2 same_position (run r s) (run r s').
Proof.
  assert (Hone : forall x y, same_position x y ->
                             Forall2 same_position [x] [y]).
  { intros x y H. constructor; [exact H|constructor]. }
  induction r as [|p|a IHa b IHb|a IHa b IHb|a IHa|k a IHa| |];
    intros Hb s s' Hs; simpl in Hb.
  - simpl. now apply Hone.
  - pose proof Hs as [Hp [Hr Hg]]. simpl.
    destruct (rest s) as [|c t], (rest s') as [|c' t'];
      try discriminate; [constructor|].
    injection Hr as Hc Ht.
    rewrite (blind_transfers p c c' Hb Hc).
    destruct (p c'); [|constructor].
    apply Hone. repeat split; simpl; auto.
  - destruct Hb as [Ha Hb]. simpl.
    apply (Forall2_flat_map same_position); [now apply IHa|].
    intros x x' Hx. now apply IHb.
  - destruct Hb as [Ha Hb]. simpl.
    apply Forall2_app; [now apply IHa|now apply IHb].
  - simpl. pose proof Hs as [_ [Hr _]].
    rewrite (lower_length _ _ Hr). clear Hr.
    generalize (length (rest s')) as fuel.
    intros fuel. revert s s' Hs.
    induction fuel as [|fuel IHf]; intros s s' Hs.
    + simpl. now apply Hone.
    + cbn [star_loop]. apply Forall2_app; [|now apply Hone].
      apply (Forall2_flat_map same_position); [now apply IHa|].
      intros x x' Hx.
      pose proof Hx as [_ [Hxr _]]. pose proof Hs as [_ [Hr _]].
      rewrite (lower_length _ _ Hxr), (lower_length _ _ Hr).
      destruct (length (rest x') <? length (rest s')); [|constructor].
      now apply IHf.
  - simpl. specialize (IHa Hb s s' Hs).
    induction IHa as [|x x' l l' Hx _ IH]; simpl; [constructor|].
    constructor; [|exact IH].
    destruct Hs as [Hp [Hr Hg]]. destruct Hx as [Hxp [Hxr Hxg]].
    repeat split; simpl; auto.
    constructor; [|exact Hxg].
    split; simpl; [reflexivity|].
    rewrite (lower_length _ _ Hr), (lower_length _ _ Hxr).
    unfold lower in *. rewrite <- !firstn_map. now rewrite Hr.
  - pose proof Hs as [Hp [Hr Hg]]. simpl. rewrite Hp.
    destruct (pos s' =? 0); [now apply Hone|constructor].
  - pose proof Hs as [Hp [Hr Hg]]. simpl.
    destruct (rest s) as [|c [|d t]], (rest s') as [|c' [|d' t']];
      try discriminate; try (now apply Hone); try constructor.
    injection Hr as Hc.
    assert (E : (c =? 10)%N = (c' =? 10)%N).
    { rewrite N.eqb_sym, (N.eqb_sym c'), <- (eqb_lower 10 c), <- (eqb_lower 10 c')
        by reflexivity. now rewrite Hc. }
    rewrite E. destruct (c' =? 10)%N; [now apply Hone|constructor].
Qed.

Lemma case_blind_word (l : text) : case_blind (cat (List.map chr_i l)).
Proof.
  induction l as [|x l IH]; simpl; [exact I|].
  split; [|exact IH]. intros c. now rewrite lower_char_idem.
Qed.

Lemma case_blind_word_i (s : String.string) : case_blind (word_i s).
Proof. apply case_blind_word. Qed.

Lemma eqb_lower_r (k c : N) :
  (k < 65)%N -> (lower_char c =? k)%N = (c =? k)%N.
Proof.
  intros Hk. rewrite N.eqb_sym, (N.eqb_sym c). now apply eqb_lower.
Qed.

Lemma case_blind_rules (a : action) :
  case_blind VEL_RE /\ case_blind (rule_of a).
Proof.
  split; [|destruct a]; unfold rule_of, VEL_RE, DRIVE_RE, ROTATE_RE;
    cbn [case_blind cat fold_right Plus Opt NUM ws digit chr];
    repeat split;
    try apply case_blind_word_i;
    intros c;
    first [ apply isspace_lower
          | apply is_digit_lower
          | apply eqb_lower; reflexivity
          | cbv beta; now rewrite lower_char_idem ].
Qed.

Lemma scan_digits_same (t : text) :
  forall (t' : text) (mant : Z) (scale : positive) (dot : bool),
    lower t = lower t' ->
    scan_digits mant scale dot t = scan_digits mant scale dot t'.
Proof.
  induction t as [|c t IH]; intros [|c' t'] mant scale dot H;
    try discriminate; [reflexivity|].
  injection H as Hc Ht. simpl.
  rewrite <- (blind_transfers is_digit c c' is_digit_lower Hc).
  rewrite <- (blind_transfers (fun x => (x =? 46)%N) c c'
                (fun x => eqb_lower_r 46 x eq_refl) Hc).
  destruct (is_digit c) eqn:D.
  - rewrite <- (digit_same_letter c c' Hc D). now apply IH.
  - destruct (c =? 46)%N; now apply IH.
Qed.

(** [float] reads the same number off two tokens that differ in letter
    case only. *)
Lemma float_of_token_same (t t' : text) :
  lower t = lower t' -> float_of_token t = float_of_token t'.
Proof.
  intros H. unfold float_of_token.
  destruct t as [|c t], t' as [|c' t']; try discriminate; [reflexivity|].
  pose proof H as H'. injection H' as Hc Ht.
  rewrite <- (blind_transfers (fun x => (x =? 45)%N) c c'
                (fun x => eqb_lower_r 45 x eq_refl) Hc).
  rewrite <- (blind_transfers (fun x => (x =? 43)%N) c c'
                (fun x => eqb_lower_r 43 x eq_refl) Hc).
  destruct (c =? 45)%N; [now rewrite (scan_digits_same t t')|].
  destruct (c =? 43)%N; [now rewrite (scan_digits_same t t')|].
  now rewrite (scan_digits_same (c :: t) (c' :: t')).
Qed.

Lemma group_same (n : nat) (m m' : match_obj) :
  Forall2 same_group m m' ->
  match group n m, group n m' with
  | Some t, Some t' => lower t = lower t'
  | None, None => True
  | _, _ => False
  end.
Proof.
  induction 1 as [|[k t] [k' t'] m m' [Hk Ht] _ IH]; simpl; [exact I|].
  simpl in Hk, Ht. subst k'. destruct (k =? n); [exact Ht|exact IH].
Qed.

Lemma group_str_same (n : nat) (m m' : match_obj) :
  Forall2 same_group m m' -> lower (group_str n m) = lower (group_str n m').
Proof.
  intros H. unfold group_str. pose proof (group_same n m m' H) as G.
  destruct (group n m), (group n m'); try contradiction; [exact G|reflexivity].
Qed.

(** A case-blind rule matches two texts that differ in letter case only
    alike, capturing groups that differ in letter case only. *)
Lemma re_match_same (r : regex) (txt txt' : text) :
  case_blind r -> lower txt = lower txt' ->
  match re_match r txt, re_match r txt' with
  | Some m, Some m' => Forall2 same_group m m'
  | None, None => True
  | _, _ => False
  end.
Proof.
  intros Hb H. unfold re_match.
  assert (Hs : same_position (mkM 0 txt []) (mkM 0 txt' [])).
  { repeat split; simpl; [exact H|constructor]. }
  pose proof (run_same_position r Hb _ _ Hs) as F.
  destruct F as [|x x' l l' [_ [_ Hg]] _]; [exact I|exact Hg].
Qed.

(** X19.  Apart from the stop words, the bridge's answer does not
    depend on letter case: two texts that differ in letter case only,
    neither of them one of the three stop words, are answered in exactly
    the same way (same published velocity, same goal, same reply). *)
Theorem response_ignores_case_outside_stop
        (cfg : config) (ready : readiness) (txt txt' : text) (to : addr) :
  isascii txt = true -> isascii txt' = true ->
  lower txt = lower txt' ->
  existsb (text_eqb txt) STOP_WORDS = false ->
  existsb (text_eqb txt') STOP_WORDS = false ->
  _handle_command cfg ready txt to = _handle_command cfg ready txt' to.
Proof.
  intros _ _ H Hs Hs'. unfold _handle_command. rewrite Hs, Hs'.
  pose proof (re_match_same VEL_RE txt txt'
                (proj1 (case_blind_rules DriveDistance)) H) as V.
  destruct (re_match VEL_RE txt) as [m|], (re_match VEL_RE txt') as [m'|];
    try contradiction.
  { now rewrite (float_of_token_same _ _ (group_str_same 1 m m' V)),
      (float_of_token_same _ _ (group_str_same 2 m m' V)). }
  pose proof (re_match_same DRIVE_RE txt txt'
                (proj2 (case_blind_rules DriveDistance)) H) as D.
  destruct (re_match DRIVE_RE txt) as [m|], (re_match DRIVE_RE txt') as [m'|];
    try contradiction.
  { rewrite (group_str_same 1 m m' D),
      (float_of_token_same _ _ (group_str_same 2 m m' D)).
    pose proof (group_same 3 m m' D) as G.
    destruct (group 3 m), (group 3 m'); try contradiction; [|reflexivity].
    now rewrite (float_of_token_same _ _ G). }
  pose proof (re_match_same ROTATE_RE txt txt'
                (proj2 (case_blind_rules RotateAngle)) H) as R.
  destruct (re_match ROTATE_RE txt) as [m|], (re_match ROTATE_RE txt') as [m'|];
    try contradiction; [|reflexivity].
  rewrite (group_str_same 1 m m' R),
    (float_of_token_same _ _ (group_str_same 2 m m' R)).
  pose proof (group_same 3 m m' R) as G.
  destruct (group 3 m), (group 3 m'); try contradiction; [|reflexivity].
  now rewrite (float_of_token_same _ _ G).
Qed.

Lemma response_ignores_case_outside_stop_witness :
  _handle_command default_config all_ready (lit "DRIVE Forward 2 Speed 0.3") peer
  = _handle_command default_config all_ready (lit "drive forward 2 speed 0.3") peer.
Proof.
  apply response_ignores_case_outside_stop; vm_compute; reflexivity.
Defined.

(** * The relay's wrapping and the bridge's sanitizer *)

Lemma run_cat_app (rs1 rs2 : list regex) :
  forall st,
    run (cat (rs1 ++ rs2)) st = flat_map (run (cat rs2)) (run (cat rs1) st).
Proof.
  induction rs1 as [|r rs1 IH]; intros st.
  - simpl. now rewrite app_nil_r.
  - cbn [app]. rewrite !run_cat_cons.
    induction (run r st) as [|x l IHl]; [reflexivity|].
    cbn [flat_map]. rewrite flat_map_app, IH, IHl. reflexivity.
Qed.

Lemma flat_map_nil {A B} (f : A -> list B) (l : list A) :
  (forall x, In x l -> f x = []) -> flat_map f l = [].
Proof.
  induction l as [|x l IH]; intros H; [reflexivity|].
  cbn [flat_map]. rewrite (H x) by now left.
  apply IH. intros y Hy. apply H. now right.
Qed.

(** What [\s*] can consume: a run of whitespace, and nothing else
    changes. *)
Lemma in_star_ws (fuel : nat) (st st' : mstate) :
  In st' (star_loop (run ws) fuel st) ->
  exists sp, rest st = sp ++ rest st' /\ forallb isspace sp = true.
Proof.
  revert fuel st st'.
  apply (in_star_loop (run ws)
           (fun s s' => exists sp, rest s = sp ++ rest s'
                                   /\ forallb isspace sp = true)).
  - intros s. now exists [].
  - intros a b c [s1 [H1 F1]] [s2 [H2 F2]]. exists (s1 ++ s2).
    split; [now rewrite H1, H2, app_assoc|].
    now rewrite forallb_app, F1, F2.
  - intros s s' Hin. rewrite run_ws in Hin.
    destruct (rest s) as [|c t]; [destruct Hin|].
    destruct (isspace c) eqn:E; [|destruct Hin].
    destruct Hin as [<-|[]]. exists [c]. simpl. now rewrite E.
Qed.

Lemma no_open_angle_head (c : N) (t : text) :
  no_open_angle (c :: t) = true -> (c =? 60)%N = false.
Proof.
  unfold no_open_angle. simpl. intros H. apply andb_true_iff in H as [H _].
  now apply negb_true_iff in H.
Qed.

Lemma no_open_angle_app (a b : text) :
  no_open_angle (a ++ b) = no_open_angle a && no_open_angle b.
Proof. apply forallb_app. Qed.

(** A text without [<] offers the two marker patterns nothing to
    match, wherever the scan stands. *)
Lemma no_marker_without_angle (items : list regex) (p : nat) (t : text)
      (g : list (nat * text)) :
  no_open_angle t = true ->
  run (cat (Star ws :: chr 60 :: items)) (mkM p t g) = [].
Proof.
  intros Ht. rewrite run_cat_cons. apply flat_map_nil.
  intros st' Hin. change (run (Star ws) (mkM p t g))
    with (star_loop (run ws) (length t) (mkM p t g)) in Hin.
  apply in_star_ws in Hin as [sp [Hr _]]. cbn [rest] in Hr.
  rewrite run_cat_cons.
  change (run (chr 60) st')
    with (match rest st' with
          | c :: r => if (60 =? c)%N then [mkM (S (pos st')) r (groups st')] else []
          | [] => []
          end).
  destruct (rest st') as [|c r]; [reflexivity|].
  rewrite Hr, no_open_angle_app in Ht. apply andb_true_iff in Ht as [_ Ht].
  apply no_open_angle_head in Ht. now rewrite N.eqb_sym, Ht.
Qed.

Lemma sub_start_after_bol (fuel : nat) :
  forall (p : nat) (t : text),
    0 < p -> length t < fuel -> sub_from fuel START_RE [] p t = t.
Proof.
  induction fuel as [|fuel IH]; intros p t Hp Hl; [lia|].
  unfold sub_from; fold sub_from.
  assert (Hnone : run START_RE (mkM p t []) = []).
  { unfold START_RE. rewrite run_cat_cons. simpl (run Bol _).
    destruct p; [lia|reflexivity]. }
  rewrite Hnone. destruct t as [|c t]; [reflexivity|].
  rewrite IH by (simpl in Hl; lia). reflexivity.
Qed.

Lemma sub_start_no_angle (t : text) :
  no_open_angle t = true -> re_sub START_RE [] t = t.
Proof.
  intros Ht. unfold re_sub, sub_from; fold sub_from.
  assert (Hnone : run START_RE (mkM 0 t []) = []).
  { unfold START_RE. rewrite run_cat_cons.
    change (run Bol (mkM 0 t [])) with [mkM 0 t []]. cbn [flat_map].
    now rewrite no_marker_without_angle. }
  rewrite Hnone. destruct t as [|c t]; [reflexivity|].
  rewrite sub_start_after_bol by (simpl; lia). reflexivity.
Qed.

Lemma sub_end_no_angle (fuel : nat) :
  forall (p : nat) (t : text),
    no_open_angle t = true -> length t < fuel ->
    sub_from fuel END_RE [] p t = t.
Proof.
  induction fuel as [|fuel IH]; intros p t Ht Hl; [lia|].
  unfold sub_from; fold sub_from.
  unfold END_RE at 1. rewrite no_marker_without_angle by exact Ht.
  destruct t as [|c t]; [reflexivity|].
  rewrite IH; [reflexivity| |simpl in Hl; lia].
  unfold no_open_angle in *. simpl in Ht.
  now apply andb_true_iff in Ht.
Qed.

Lemma lstrip_app (u v : text) :
  lstrip (u ++ v) = if forallb isspace u then lstrip v else lstrip u ++ v.
Proof.
  induction u as [|c u IH]; simpl; [reflexivity|].
  destruct (isspace c); [exact IH|reflexivity].
Qed.

Lemma forallb_rev {A} (f : A -> bool) (l : list A) :
  forallb f (rev l) = forallb f l.
Proof.
  induction l as [|x l IH]; simpl; [reflexivity|].
  rewrite forallb_app, IH. simpl. rewrite andb_true_r. apply andb_comm.
Qed.

Lemma drop_ws_tail_blank (t : text) :
  forallb isspace t = true -> drop_ws_tail t = [].
Proof. destruct t as [|c t]; [reflexivity|]. intros H. simpl in *. now rewrite H. Qed.

Lemma drop_ws_tail_rstrip (t : text) : drop_ws_tail t = rstrip t.
Proof.
  induction t as [|c t IH]; [reflexivity|].
  unfold rstrip in *. cbn [rev]. rewrite lstrip_app, forallb_rev.
  cbn [drop_ws_tail forallb]. destruct (forallb isspace t) eqn:E.
  - rewrite andb_true_r. simpl. rewrite (drop_ws_tail_blank t E).
    now destruct (isspace c).
  - rewrite andb_false_r, rev_app_distr, IH. reflexivity.
Qed.

(** The start pattern on a text that opens with the marker: it takes
    the marker and the whitespace after it. *)
Lemma start_marker_prefix_run (t : text) :
  run (cat [Bol; Star ws; chr 60; Star ws; word_i "start"; Star ws; chr 62])
      (mkM 0 (START_MARK ++ t) [])
  = [mkM 7 t []].
Proof. rewrite START_MARK_chars. reflexivity. Qed.

Lemma re_sub_start_wrapped (t : text) :
  re_sub START_RE [] (START_MARK ++ t) = lstrip t.
Proof.
  unfold re_sub, sub_from; fold sub_from.
  change START_RE
    with (cat ([Bol; Star ws; chr 60; Star ws; word_i "start"; Star ws; chr 62]
                 ++ [Star ws])) at 1.
  rewrite run_cat_app, start_marker_prefix_run. cbn [flat_map].
  rewrite run_cat_cons.
  change (run (Star ws) (mkM 7 t []))
    with (star_loop (run ws) (length t) (mkM 7 t [])).
  destruct (star_ws_head (length t) (mkM 7 t [])) as [h [tl [Hh Hrest]]];
    [simpl; lia|].
  rewrite Hh. cbn [flat_map cat fold_right run app]. cbn [rest] in Hrest.
  rewrite Hrest.
  pose proof (lstrip_length t) as Hle.
  assert (Hlen : length (START_MARK ++ t) = 7 + length t)
    by (now rewrite length_app).
  rewrite Hlen.
  replace (7 + length t - length (lstrip t) =? 0) with false
    by (symmetry; apply Nat.eqb_neq; lia).
  rewrite sub_start_after_bol by lia. reflexivity.
Qed.

(** The end pattern on blank text followed by the marker: it takes
    everything. *)
Lemma end_marker_full_match (p : nat) (w : text) (g : list (nat * text)) :
  forallb isspace w = true ->
  exists h tl, run END_RE (mkM p (w ++ END_MARK) g) = h :: tl /\ rest h = [].
Proof.
  intros Hw. unfold END_RE. rewrite run_cat_cons.
  change (run (Star ws) (mkM p (w ++ END_MARK) g))
    with (star_loop (run ws) (length (w ++ END_MARK)) (mkM p (w ++ END_MARK) g)).
  destruct (star_ws_head (length (w ++ END_MARK)) (mkM p (w ++ END_MARK) g))
    as [[p0 r0 g0] [tl [Hh Hrest]]]; [simpl; lia|].
  rewrite Hh. cbn [rest] in Hrest. rewrite lstrip_app, Hw in Hrest.
  rewrite END_MARK_chars in Hrest. simpl in Hrest. subst r0.
  cbn [flat_map].
  eexists; eexists. split; [reflexivity|]. reflexivity.
Qed.

(** The end pattern finds nothing in front of text that still holds a
    visible character before the marker and no [<]. *)
Lemma end_marker_no_match (p : nat) (u : text) (g : list (nat * text)) :
  no_open_angle u = true -> forallb isspace u = false ->
  run END_RE (mkM p (u ++ END_MARK) g) = [].
Proof.
  intros Hu Hvis. unfold END_RE. rewrite run_cat_cons. apply flat_map_nil.
  intros st' Hin.
  change (run (Star ws) (mkM p (u ++ END_MARK) g))
    with (star_loop (run ws) (length (u ++ END_MARK)) (mkM p (u ++ END_MARK) g))
    in Hin.
  apply in_star_ws in Hin as [sp [Hr Hsp]]. cbn [rest] in Hr.
  rewrite run_cat_cons.
  change (run (chr 60) st')
    with (match rest st' with
          | c :: r => if (60 =? c)%N then [mkM (S (pos st')) r (groups st')] else []
          | [] => []
          end).
  destruct (rest st') as [|c r]; [reflexivity|].
  destruct (60 =? c)%N eqn:E; [|reflexivity].
  exfalso. apply N.eqb_eq in E. subst c.
  apply (f_equal lstrip) in Hr.
  rewrite !lstrip_app, Hvis, Hsp in Hr. simpl in Hr.
  destruct (lstrip_suffix u) as [s Hs].
  destruct (lstrip u) as [|x l] eqn:El.
  - rewrite app_nil_r in Hs. subst s.
    assert (F : forallb isspace u = true).
    { clear -El. induction u as [|c u IH]; [reflexivity|].
      simpl in *. destruct (isspace c); [now apply IH|discriminate]. }
    congruence.
  - simpl in Hr. injection Hr as Hx _. subst x.
    rewrite Hs, no_open_angle_app in Hu. apply andb_true_iff in Hu as [_ Hu].
    apply no_open_angle_head in Hu. discriminate.
Qed.

Lemma sub_end_nil (fuel p : nat) : sub_from fuel END_RE [] p [] = [].
Proof. destruct fuel; reflexivity. Qed.

Lemma sub_end_wrapped (fuel : nat) :
  forall (p : nat) (u : text),
    no_open_angle u = true -> length (u ++ END_MARK) < fuel ->
    sub_from fuel END_RE [] p (u ++ END_MARK) = drop_ws_tail u.
Proof.
  induction fuel as [|fuel IH]; intros p u Hu Hl; [lia|].
  unfold sub_from; fold sub_from.
  destruct (forallb isspace u) eqn:Hvis.
  - destruct (end_marker_full_match p u [] Hvis) as [h [tl [Hh Hrest]]].
    rewrite Hh, Hrest. cbn [length].
    rewrite Nat.sub_0_r.
    replace (length (u ++ END_MARK) =? 0) with false
      by (symmetry; apply Nat.eqb_neq; rewrite length_app, END_MARK_chars;
          simpl; lia).
    rewrite sub_end_nil. now rewrite drop_ws_tail_blank.
  - rewrite end_marker_no_match by assumption.
    destruct u as [|c u]; [discriminate|].
    cbn [app]. rewrite IH.
    + cbn [drop_ws_tail]. now rewrite Hvis.
    + unfold no_open_angle in *. simpl in Hu. now apply andb_true_iff in Hu.
    + cbn [app length] in Hl. lia.
Qed.

Lemma lstrip_blank (t : text) : forallb isspace t = true -> lstrip t = [].
Proof.
  induction t as [|c t IH]; simpl; [reflexivity|].
  destruct (isspace c); [exact IH|discriminate].
Qed.

Lemma no_open_angle_strip (t : text) :
  no_open_angle t = true ->
  no_open_angle (lstrip t) = true /\ no_open_angle (strip t) = true.
Proof.
  intros Ht.
  assert (Hl : no_open_angle (lstrip t) = true).
  { destruct (lstrip_suffix t) as [s Hs]. rewrite Hs, no_open_angle_app in Ht.
    now apply andb_true_iff in Ht. }
  split; [exact Hl|]. unfold strip.
  destruct (rstrip_prefix (lstrip t)) as [s Hs].
  rewrite Hs, no_open_angle_app in Hl. now apply andb_true_iff in Hl.
Qed.

(** The sanitizer on what the relay sends. *)
Lemma strip_wrappers_of_payload (m : text) :
  no_open_angle m = true ->
  strip_wrappers (Rx.relay_payload m)
  = strip (re_sub WS_RUN (lit " ") (strip m)).
Proof.
  intros Hm. destruct (no_open_angle_strip m Hm) as [Hl _].
  unfold strip_wrappers, Rx.relay_payload.
  rewrite !(strip_clean (START_MARK ++ m ++ END_MARK));
    [|reflexivity|rewrite !rev_app_distr, END_MARK_chars; reflexivity].
  assert (Hq : quoted (START_MARK ++ m ++ END_MARK) = false)
    by (rewrite START_MARK_chars; reflexivity).
  rewrite Hq, re_sub_start_wrapped.
  assert (Hls : lstrip (m ++ END_MARK) = lstrip m ++ END_MARK).
  { rewrite lstrip_app. destruct (forallb isspace m) eqn:E; [|reflexivity].
    now rewrite (lstrip_blank m E). }
  rewrite Hls. unfold re_sub at 2.
  rewrite sub_end_wrapped by (assumption || lia).
  now rewrite drop_ws_tail_rstrip.
Qed.

(** The sanitizer on a bare text that is not quoted and holds no [<]. *)
Lemma strip_wrappers_of_bare (m : text) :
  no_open_angle m = true -> quoted (strip m) = false ->
  strip_wrappers m = strip (re_sub WS_RUN (lit " ") (strip m)).
Proof.
  intros Hm Hq. destruct (no_open_angle_strip m Hm) as [_ Hs].
  unfold strip_wrappers. rewrite Hq, (sub_start_no_angle _ Hs).
  unfold re_sub at 2. rewrite sub_end_no_angle by (assumption || lia).
  reflexivity.
Qed.

(** X20.  The relay's wrapping is transparent to the bridge: an ASCII
    message without [<] that is not itself enclosed in quotes and that,
    wrapped in the markers as the receiver relays it, is no longer than
    the 4096 bytes the bridge reads of a datagram, is handled when it
    arrives wrapped exactly as if it had been sent to the bridge
    bare. *)
Theorem relayed_message_handled_as_bare
        (cfg : config) (ready : readiness) (m : text) (from : addr) :
  isascii m = true ->
  no_open_angle m = true ->
  quoted (strip m) = false ->
  length (Rx.relay_payload m) <= 4096 ->
  strip_wrappers (Rx.relay_payload m) = strip_wrappers m
  /\ exists data,
      encode (Rx.relay_payload m) = Some data
      /\ _udp_step cfg ready data from = _udp_step cfg ready m from.
Proof.
  intros Ha Hm Hq Hlen.
  assert (Hsame : strip_wrappers (Rx.relay_payload m) = strip_wrappers m).
  { now rewrite strip_wrappers_of_payload, strip_wrappers_of_bare. }
  split; [exact Hsame|].
  assert (Hp : isascii (Rx.relay_payload m) = true).
  { unfold Rx.relay_payload. now rewrite !isascii_app, Ha. }
  exists (Rx.relay_payload m). split; [now apply encode_ascii|].
  unfold _udp_step, slice_to.
  rewrite !firstn_all2;
    [|unfold Rx.relay_payload in Hlen; rewrite !length_app in Hlen; lia
     |exact Hlen].
  now rewrite !decode_ascii, Hsame by assumption.
Qed.

Lemma relayed_message_handled_as_bare_witness :
  strip_wrappers (Rx.relay_payload (lit "  Vel 0.2   -0.3 "))
  = strip_wrappers (lit "  Vel 0.2   -0.3 ")
  /\ exists data,
      encode (Rx.relay_payload (lit "  Vel 0.2   -0.3 ")) = Some data
      /\ _udp_step default_config all_ready data peer
         = _udp_step default_config all_ready (lit "  Vel 0.2   -0.3 ") peer.
Proof.
  apply relayed_message_handled_as_bare;
    try reflexivity. apply Nat.leb_le. reflexivity.
Defined.

(** X21.  The robot is told to stop, with the reply [ok: stopped],
    exactly when the text is one of the three words [stop], [e-stop]
    and [estop] as spelled here; no other ASCII text has that effect. *)
Theorem stop_exactly_for_stop_words
        (cfg : config) (ready : readiness) (txt : text) (to : addr) :
  isascii txt = true ->
  _handle_command cfg ready txt to
  = [Publish 0 0; Reply to (Plain (lit "ok: stopped"))]
  <-> In txt STOP_WORDS.
Proof.
  intros _.
  assert (Hex : existsb (text_eqb txt) STOP_WORDS = true <-> In txt STOP_WORDS).
  { rewrite existsb_exists. split.
    - intros [w [Hin Heq]]. apply text_eqb_eq in Heq. now subst w.
    - intros Hin. exists txt. split; [exact Hin|now apply text_eqb_eq]. }
  rewrite <- Hex. unfold _handle_command.
  destruct (existsb (text_eqb txt) STOP_WORDS); [now split|].
  split; [|discriminate].
  destruct (re_match VEL_RE txt) as [m|]; [discriminate|].
  destruct (re_match DRIVE_RE txt) as [m|].
  { unfold _send_drive_distance. destruct (ready DriveDistance); discriminate. }
  destruct (re_match ROTATE_RE txt) as [m|].
  { unfold _send_rotate_angle. destruct (ready RotateAngle); discriminate. }
  discriminate.
Qed.

Lemma stop_exactly_for_stop_words_witness :
  _handle_command default_config all_ready (lit "vel 0 0") peer
  = [Publish 0 0; Reply peer (Plain (lit "ok: stopped"))]
  <-> In (lit "vel 0 0") STOP_WORDS.
Proof.
  apply stop_exactly_for_stop_words. reflexivity.
Defined.

(** X22.  The receiver relays nothing as long as no packet holds an end
    marker, whatever state it starts in and whatever else the packets
    hold. *)
Theorem rx_relays_only_on_end_marker (size : nat) (st : Rx.state)
        (ds : list bytes) :
  Forall (fun d => contains END_MARK (Rx.chunk_of size d) = false) ds ->
  snd (Rx.run size st ds) = [].
Proof.
  intros Hall. revert st. induction Hall as [|d ds Hd _ IH]; intros st;
    [reflexivity|].
  rewrite rx_run_cons. cbn [snd].
  assert (Hnone : snd (Rx.step size st d) = None).
  { unfold Rx.step, Rx.process.
    destruct (contains START_MARK (Rx.chunk_of size d)).
    - unfold slice_from. rewrite (contains_skipn _ _ _ Hd). reflexivity.
    - rewrite Hd. now destruct (Rx.inside_message st). }
  rewrite Hnone. apply IH.
Qed.

Lemma rx_relays_only_on_end_marker_witness :
  snd (Rx.run Rx.PACKET_SIZE Rx.initial
              [Rx.datagram "<START>drive"; Rx.datagram " forward 1 <end>";
               Rx.datagram "<START>stop"])
  = [].
Proof.
  apply rx_relays_only_on_end_marker. repeat constructor.
Defined.
